(** * Snake game engine (src/src/App.tsx): shallow embedding and properties

    The React component [App] keeps the whole game in five [useState] cells
    and one [useRef] cell.  The embedding below keeps them as the fields of a
    record and turns the two callbacks that mutate them, the interval callback
    [moveSnake] and the keyboard listener [handleKeyPress], into functions on
    that record.

    Modelling conventions.
    - The first embedding models JavaScript numbers as [Z] and treats every
      key but the four arrows as unmapped.  It describes the program on
      runs in which no key is named like a member of [Object.prototype];
      module [Js] further down embeds the same functions on JavaScript
      values (integers or NaN, property reads that may give [undefined])
      for all key names, and [lift_exec] relates the two.
    - JavaScript numbers are modelled as [Z]; every coordinate the program
      computes is a small integer, so no rounding occurs.  The comparison
      [a !== -b] with [b = 0] compares against negative zero, which is equal
      to zero for [!==]; on [Z] this is [a <> - 0].
    - [Math.random()] is modelled by an oracle: a list of pairs of rationals,
      one pair per iteration of the rejection loop of [generateFood] (first
      component for [x], second for [y]).  The loop returns [None] when the
      list is exhausted before a candidate is accepted.
    - The callbacks [checkCollision] and [generateFood] read the [snake] that
      was captured by the last render, and [moveSnake] reads [food] the same
      way.  The game-loop effect lists all of them as dependencies, so the
      interval is re-installed after every render and the captured values are
      those of the state in which the tick fires.  Both callbacks therefore
      take the pre-tick snake as an explicit argument. *)

From Stdlib Require Import ZArith List Bool String QArith Qround Lia.
Import ListNotations.

Local Open Scope Z_scope.

(** ** Data *)

Record Position : Type := mkPosition { x : Z; y : Z }.

Definition Position_eqb (p q : Position) : bool :=
  (x p =? x q) && (y p =? y q).

Definition GRID_SIZE : Z := 20.
Definition INITIAL_SNAKE : list Position := [ {| x := 10; y := 10 |} ].
Definition INITIAL_DIRECTION : Position := {| x := 1; y := 0 |}.

(** The state cells of the component: [snake], [food], [gameOver], [score],
    [isPaused] are [useState] cells, [directionRef] is the [useRef] cell. *)
Record GameState : Type := mkGameState {
  snake : list Position;
  food : Position;
  gameOver : bool;
  score : Z;
  isPaused : bool;
  directionRef : Position
}.

Definition initialState : GameState :=
  {| snake := INITIAL_SNAKE;
     food := {| x := 15; y := 15 |};
     gameOver := false;
     score := 0;
     isPaused := false;
     directionRef := INITIAL_DIRECTION |}.

(** The three phases of the specification, read off the two flags. *)
Inductive Phase : Type := Running | Paused | GameOver.

Definition phase (st : GameState) : Phase :=
  if gameOver st then GameOver
  else if isPaused st then Paused
  else Running.

(** ** Array helpers *)

(** [Array.prototype.some] with the (element, index) callback. *)
Fixpoint some_from {A : Type} (f : A -> nat -> bool) (i : nat) (l : list A) : bool :=
  match l with
  | [] => false
  | a :: l' => f a i || some_from f (S i) l'
  end.

Definition array_some {A : Type} (f : A -> nat -> bool) (l : list A) : bool :=
  some_from f 0%nat l.

(** ** generateFood *)

(** One candidate: [Math.floor(Math.random() * GRID_SIZE)] for each axis. *)
Definition randomCell (r : Q * Q) : Position :=
  {| x := Qfloor (fst r * inject_Z GRID_SIZE);
     y := Qfloor (snd r * inject_Z GRID_SIZE) |}.

(** The do-while loop: draw, and draw again while the candidate lies on the
    captured snake. *)
Fixpoint generateFood (snake : list Position) (draws : list (Q * Q)) : option Position :=
  match draws with
  | [] => None
  | r :: rest =>
      let newFood := randomCell r in
      if array_some
           (fun segment _ => (x segment =? x newFood) && (y segment =? y newFood))
           snake
      then generateFood snake rest
      else Some newFood
  end.

(** ** checkCollision *)

Definition checkCollision (snake : list Position) (head : Position) : bool :=
  if (x head <? 0) || (x head >=? GRID_SIZE) || (y head <? 0) || (y head >=? GRID_SIZE)
  then true
  else array_some
         (fun segment index =>
            (0 <? index)%nat && (x segment =? x head) && (y segment =? y head))
         snake.

(** ** moveSnake and the game loop *)

(** [head.x += currentDir.x; head.y += currentDir.y] on a copy of the head. *)
Definition advance (head currentDir : Position) : Position :=
  {| x := x head + x currentDir; y := y head + y currentDir |}.

Definition setGameOver (st : GameState) (b : bool) : GameState :=
  {| snake := snake st; food := food st; gameOver := b;
     score := score st; isPaused := isPaused st; directionRef := directionRef st |}.

Definition setSnake (st : GameState) (s : list Position) : GameState :=
  {| snake := s; food := food st; gameOver := gameOver st;
     score := score st; isPaused := isPaused st; directionRef := directionRef st |}.

Definition setFood (st : GameState) (f : Position) : GameState :=
  {| snake := snake st; food := f; gameOver := gameOver st;
     score := score st; isPaused := isPaused st; directionRef := directionRef st |}.

Definition setScore (st : GameState) (n : Z) : GameState :=
  {| snake := snake st; food := food st; gameOver := gameOver st;
     score := n; isPaused := isPaused st; directionRef := directionRef st |}.

Definition setIsPaused (st : GameState) (b : bool) : GameState :=
  {| snake := snake st; food := food st; gameOver := gameOver st;
     score := score st; isPaused := b; directionRef := directionRef st |}.

Definition setDirectionRef (st : GameState) (d : Position) : GameState :=
  {| snake := snake st; food := food st; gameOver := gameOver st;
     score := score st; isPaused := isPaused st; directionRef := d |}.

(** The interval callback.  On an empty array [prevSnake[0]] is [undefined],
    the copied head has no coordinates, every comparison on it is false and
    the one-element array is popped again: the state is left as it was. *)
Definition moveSnake (st : GameState) (draws : list (Q * Q)) : option GameState :=
  match snake st with
  | [] => Some st
  | prevHead :: _ =>
      let currentDir := directionRef st in
      let head := advance prevHead currentDir in
      if checkCollision (snake st) head then
        Some (setGameOver st true)
      else
        let newSnake := head :: snake st in
        if (x head =? x (food st)) && (y head =? y (food st)) then
          match generateFood (snake st) draws with
          | Some newFood =>
              Some (setSnake (setScore (setFood st newFood) (score st + 10)) newSnake)
          | None => None
          end
        else
          Some (setSnake st (removelast newSnake))
  end.

(** The game-loop effect installs the interval only when neither flag is
    set: a timer period in any other phase delivers no tick. *)
Definition gameLoop (st : GameState) (draws : list (Q * Q)) : option GameState :=
  if gameOver st || isPaused st then Some st
  else moveSnake st draws.

(** ** handleKeyPress *)

Definition keyMap (key : string) : option Position :=
  if String.eqb key "ArrowUp" then Some {| x := 0; y := -1 |}
  else if String.eqb key "ArrowDown" then Some {| x := 0; y := 1 |}
  else if String.eqb key "ArrowLeft" then Some {| x := -1; y := 0 |}
  else if String.eqb key "ArrowRight" then Some {| x := 1; y := 0 |}
  else None.

Definition handleKeyPress (key : string) (st : GameState) : GameState :=
  if gameOver st then
    if String.eqb key " " || String.eqb key "Enter" then
      {| snake := INITIAL_SNAKE;
         food := {| x := 15; y := 15 |};
         gameOver := false;
         score := 0;
         isPaused := false;
         directionRef := INITIAL_DIRECTION |}
    else st
  else if String.eqb key " " || String.eqb key "p" || String.eqb key "P" then
    setIsPaused st (negb (isPaused st))
  else
    match keyMap key with
    | Some newDirection =>
        let currentDir := directionRef st in
        if negb (x newDirection =? - x currentDir)
           && negb (y newDirection =? - y currentDir)
        then setDirectionRef st newDirection
        else st
    | None => st
    end.

(** ** Events, runs and reachable states *)

Inductive event : Type :=
| Tick (draws : list (Q * Q))
| KeyDown (key : string).

Definition exec (e : event) (st : GameState) : option GameState :=
  match e with
  | Tick draws => gameLoop st draws
  | KeyDown key => Some (handleKeyPress key st)
  end.

Fixpoint run (es : list event) (st : GameState) : option GameState :=
  match es with
  | [] => Some st
  | e :: es' =>
      match exec e st with
      | Some st' => run es' st'
      | None => None
      end
  end.

Inductive reachable : GameState -> Prop :=
| reachable_init : reachable initialState
| reachable_exec : forall e st st',
    reachable st -> exec e st = Some st' -> reachable st'.


(** ** Predicates used in the statements *)

Definition inBounds (p : Position) : Prop :=
  0 <= x p < GRID_SIZE /\ 0 <= y p < GRID_SIZE.

(** The four unit vectors of [keyMap]. *)
Definition isDirection (d : Position) : Prop :=
  d = {| x := 1; y := 0 |} \/ d = {| x := -1; y := 0 |} \/
  d = {| x := 0; y := 1 |} \/ d = {| x := 0; y := -1 |}.

Definition opposite (d : Position) : Position :=
  {| x := - x d; y := - y d |}.

(** Orthogonal neighbours: the cells at distance one along one axis. *)
Definition adjacent (p q : Position) : Prop :=
  Z.abs (x q - x p) + Z.abs (y q - y p) = 1.

(** The draw lands on a cell that the captured snake does not occupy. *)
Definition accepted (snake : list Position) (r : Q * Q) : Prop :=
  ~ In (randomCell r) snake.

(** What every event preserves: the direction cell holds a unit vector, the
    snake is non-empty and its segments are pairwise distinct. *)
Definition Inv (st : GameState) : Prop :=
  isDirection (directionRef st) /\ NoDup (snake st) /\ snake st <> [].

(** ** Keys *)

Definition isPauseKey (key : string) : Prop :=
  key = " "%string \/ key = "p"%string \/ key = "P"%string.

Definition isRestartKey (key : string) : Prop :=
  key = " "%string \/ key = "Enter"%string.

(** ** Phase transitions *)

(** The moves of the phase between the state before an event and the state
    after it; [st] is the state before. *)
Inductive transition (st : GameState) : event -> Phase -> Phase -> Prop :=
| tr_stay : forall e p, transition st e p p
| tr_pause : forall key,
    isPauseKey key -> transition st (KeyDown key) Running Paused
| tr_resume : forall key,
    isPauseKey key -> transition st (KeyDown key) Paused Running
| tr_collision : forall draws prevHead body,
    snake st = prevHead :: body ->
    checkCollision (snake st) (advance prevHead (directionRef st)) = true ->
    transition st (Tick draws) Running GameOver
| tr_reset : forall key,
    isRestartKey key -> transition st (KeyDown key) GameOver Running.

(** ** Outcomes named in the statements *)

(** Segments pairwise distinct, at least one segment. *)
Definition snakeInvariant (st : GameState) : Prop :=
  NoDup (snake st) /\ (1 <= List.length (snake st))%nat.


(** The tick ended the game and kept snake, food and score. *)
Definition endedUnchanged (st st' : GameState) : Prop :=
  phase st' = GameOver /\
  snake st' = snake st /\ food st' = food st /\ score st' = score st.

(** Every segment displaced by the vector [d]. *)
Definition shiftedBy (d : Position) (before after : list Position) : Prop :=
  after = map (fun p => advance p d) before.

(** ** Sample runs

    [trace_eat] walks the initial snake five cells to the right and five
    cells down onto the initial food at (15,15); the oracle of the last tick
    draws 0 for both coordinates. *)

Definition ticks (n : nat) : list event := repeat (Tick []) n.

Definition trace_eat : list event :=
  ticks 5 ++ [KeyDown "ArrowDown"] ++ ticks 4 ++ [Tick [(0, 0)%Q]].

Definition state_after_eat : GameState :=
  {| snake := [ {| x := 15; y := 15 |}; {| x := 15; y := 14 |} ];
     food := {| x := 0; y := 0 |};
     gameOver := false;
     score := 10;
     isPaused := false;
     directionRef := {| x := 0; y := 1 |} |}.


(** The state one tick before the food is reached. *)
Definition state_before_eat : GameState :=
  {| snake := [ {| x := 15; y := 14 |} ];
     food := {| x := 15; y := 15 |};
     gameOver := false;
     score := 0;
     isPaused := false;
     directionRef := {| x := 0; y := 1 |} |}.

(** After the meal the player turns left, then up, before the next tick. *)
Definition state_turned_left : GameState :=
  handleKeyPress "ArrowLeft" state_after_eat.

Definition state_reversed : GameState :=
  handleKeyPress "ArrowUp" state_turned_left.

(** Nine ticks to the right from the start: the head is on the last column. *)
Definition state_at_wall : GameState :=
  {| snake := [ {| x := 19; y := 10 |} ];
     food := {| x := 15; y := 15 |};
     gameOver := false;
     score := 0;
     isPaused := false;
     directionRef := {| x := 1; y := 0 |} |}.

(** ** Further predicates on snakes, draws and requests *)

(** A value that [Math.random()] can return. *)
Definition validDraw (r : Q * Q) : Prop :=
  (0 <= fst r)%Q /\ (fst r < 1)%Q /\ (0 <= snd r)%Q /\ (snd r < 1)%Q.

(** Each segment is an orthogonal neighbour of the segment behind it. *)
Fixpoint contiguous (l : list Position) : Prop :=
  match l with
  | [] => True
  | p :: rest =>
      match rest with
      | [] => True
      | q :: _ => adjacent q p /\ contiguous rest
      end
  end.

(** The two vectors are at a right angle. *)
Definition perpendicular (d c : Position) : Prop :=
  x d * x c + y d * y c = 0.

(** The draw whose candidate is the cell the food is on. *)
Definition foodDraw (st : GameState) : Q * Q :=
  ((x (food st) # 20)%Q, (y (food st) # 20)%Q).

Definition isTick (e : event) : Prop :=
  match e with
  | Tick _ => True
  | KeyDown _ => False
  end.

(** A snake lying on every cell of the grid, row by row. *)
Definition fullBoard : list Position :=
  map (fun index => {| x := Z.of_nat index mod GRID_SIZE;
                       y := Z.of_nat index / GRID_SIZE |})
      (seq 0 (Z.to_nat (GRID_SIZE * GRID_SIZE))).

(** The shape every event keeps: all segments on the grid, the body in one
    piece, ten points for every segment after the first. *)
Definition Shape (st : GameState) : Prop :=
  Forall inBounds (snake st) /\
  contiguous (snake st) /\
  score st = 10 * (Z.of_nat (List.length (snake st)) - 1).

(** ** The view *)

(** The cell painted by element [index] of the grid:
    [index % GRID_SIZE] and [Math.floor(index / GRID_SIZE)]. *)
Definition cellOfIndex (index : Z) : Position :=
  {| x := index mod GRID_SIZE; y := index / GRID_SIZE |}.

(** The element of the grid on which a cell is painted. *)
Definition indexOfCell (p : Position) : Z :=
  y p * GRID_SIZE + x p.

(** [snake[0]?.x === x && snake[0]?.y === y]: on an empty array the optional
    chain gives [undefined], which is equal to no number. *)
Definition isSnakeHead (snake : list Position) (c : Position) : bool :=
  match snake with
  | [] => false
  | first :: _ => (x first =? x c) && (y first =? y c)
  end.

Definition isSnakeBody (snake : list Position) (c : Position) : bool :=
  array_some
    (fun segment idx => (0 <? idx)%nat && (x segment =? x c) && (y segment =? y c))
    snake.

Definition isFood (food c : Position) : bool :=
  (x food =? x c) && (y food =? y c).

(** The class attribute of one cell of the grid. *)
Definition className (st : GameState) (index : Z) : string :=
  let c := cellOfIndex index in
  ("cell " ++ (if isSnakeHead (snake st) c then "snake-head" else "")
     ++ " " ++ (if isSnakeBody (snake st) c then "snake-body" else "")
     ++ " " ++ (if isFood (food st) c then "food" else ""))%string.

(** What the game area shows: the game-over panel with the final score, the
    pause panel, or the grid, one class attribute per cell. *)
Inductive Screen : Type :=
| GameOverScreen (finalScore : Z)
| PausedScreen
| GridScreen (cells : list string).

Definition render (st : GameState) : Screen :=
  if gameOver st then GameOverScreen (score st)
  else if isPaused st then PausedScreen
  else GridScreen
         (map (fun index => className st (Z.of_nat index))
              (seq 0 (Z.to_nat (GRID_SIZE * GRID_SIZE)))).

(** ** The reset block *)

(** The six assignments under the comment [Reset game], in their order. *)
Definition reset (st : GameState) : GameState :=
  setIsPaused
    (setScore
       (setGameOver
          (setDirectionRef
             (setFood (setSnake st INITIAL_SNAKE) {| x := 15; y := 15 |})
             INITIAL_DIRECTION)
          false)
       0)
    false.

(** ** The listener on arbitrary key names

    [keyMap] is an object literal and [keyMap[e.key]] is an ordinary property
    read: for a key whose name is a member of [Object.prototype] the read
    gives that member, a function or an object, which is truthy and has no
    [x] and no [y].  The guard then compares [undefined] with a number, both
    tests pass and the member is stored in the direction cell; the next tick
    adds [undefined] to the head, which becomes NaN on both axes.

    The definitions above work on integers and treat every key but the four
    arrows as unmapped.  The module below embeds the same functions on
    JavaScript values: a number is an integer or NaN, a property read gives a
    number or [undefined], the direction cell holds a vector or an inherited
    member.  On runs without such key names the two embeddings agree
    ([lift_exec]). *)

Module Js.

Inductive number : Type := Int (n : Z) | NaN.

(** [a + b] where [b] may be [undefined]. *)
Definition plus (a : number) (b : option number) : number :=
  match a, b with
  | Int m, Some (Int n) => Int (m + n)
  | _, _ => NaN
  end.

(** Unary minus; [-undefined] is NaN. *)
Definition neg (a : option number) : number :=
  match a with
  | Some (Int n) => Int (- n)
  | _ => NaN
  end.

(** [a === b] on numbers: NaN is equal to nothing. *)
Definition strictEq (a b : number) : bool :=
  match a, b with
  | Int m, Int n => m =? n
  | _, _ => false
  end.

(** [a !== b] where [a] may be [undefined] and [b] is a number. *)
Definition strictNeq (a : option number) (b : number) : bool :=
  match a with
  | Some a' => negb (strictEq a' b)
  | None => true
  end.

(** [a < n] and [a >= n]: false on NaN. *)
Definition lt (a : number) (n : Z) : bool :=
  match a with
  | Int m => m <? n
  | NaN => false
  end.

Definition ge (a : number) (n : Z) : bool :=
  match a with
  | Int m => m >=? n
  | NaN => false
  end.

Record Position : Type := mkPosition { x : number; y : number }.

(** What the direction cell can hold: a vector of [keyMap] or the member of
    [Object.prototype] of the given name. *)
Inductive Direction : Type :=
| Vector (dx dy : Z)
| Inherited (name : string).

(** The reads [d.x] and [d.y]. *)
Definition dirX (d : Direction) : option number :=
  match d with
  | Vector dx _ => Some (Int dx)
  | Inherited _ => None
  end.

Definition dirY (d : Direction) : option number :=
  match d with
  | Vector _ dy => Some (Int dy)
  | Inherited _ => None
  end.

Definition INITIAL_SNAKE : list Position := [ {| x := Int 10; y := Int 10 |} ].
Definition INITIAL_DIRECTION : Direction := Vector 1 0.

Record GameState : Type := mkGameState {
  snake : list Position;
  food : Position;
  gameOver : bool;
  score : Z;
  isPaused : bool;
  directionRef : Direction
}.

Definition initialState : GameState :=
  {| snake := INITIAL_SNAKE;
     food := {| x := Int 15; y := Int 15 |};
     gameOver := false;
     score := 0;
     isPaused := false;
     directionRef := INITIAL_DIRECTION |}.

Definition randomCell (r : Q * Q) : Position :=
  {| x := Int (Qfloor (fst r * inject_Z GRID_SIZE));
     y := Int (Qfloor (snd r * inject_Z GRID_SIZE)) |}.

Fixpoint generateFood (snake : list Position) (draws : list (Q * Q)) : option Position :=
  match draws with
  | [] => None
  | r :: rest =>
      let newFood := randomCell r in
      if array_some
           (fun segment _ =>
              strictEq (x segment) (x newFood) && strictEq (y segment) (y newFood))
           snake
      then generateFood snake rest
      else Some newFood
  end.

Definition checkCollision (snake : list Position) (head : Position) : bool :=
  if lt (x head) 0 || ge (x head) GRID_SIZE || lt (y head) 0 || ge (y head) GRID_SIZE
  then true
  else array_some
         (fun segment index =>
            (0 <? index)%nat && strictEq (x segment) (x head)
            && strictEq (y segment) (y head))
         snake.

Definition advance (head : Position) (currentDir : Direction) : Position :=
  {| x := plus (x head) (dirX currentDir); y := plus (y head) (dirY currentDir) |}.

Definition setGameOver (st : GameState) (b : bool) : GameState :=
  {| snake := snake st; food := food st; gameOver := b;
     score := score st; isPaused := isPaused st; directionRef := directionRef st |}.

Definition setSnake (st : GameState) (s : list Position) : GameState :=
  {| snake := s; food := food st; gameOver := gameOver st;
     score := score st; isPaused := isPaused st; directionRef := directionRef st |}.

Definition setFood (st : GameState) (f : Position) : GameState :=
  {| snake := snake st; food := f; gameOver := gameOver st;
     score := score st; isPaused := isPaused st; directionRef := directionRef st |}.

Definition setScore (st : GameState) (n : Z) : GameState :=
  {| snake := snake st; food := food st; gameOver := gameOver st;
     score := n; isPaused := isPaused st; directionRef := directionRef st |}.

Definition setIsPaused (st : GameState) (b : bool) : GameState :=
  {| snake := snake st; food := food st; gameOver := gameOver st;
     score := score st; isPaused := b; directionRef := directionRef st |}.

Definition setDirectionRef (st : GameState) (d : Direction) : GameState :=
  {| snake := snake st; food := food st; gameOver := gameOver st;
     score := score st; isPaused := isPaused st; directionRef := d |}.

(** On an empty array the head has no coordinates, nothing compares equal
    and the one-element array is popped again: the state is left as it
    was. *)
Definition moveSnake (st : GameState) (draws : list (Q * Q)) : option GameState :=
  match snake st with
  | [] => Some st
  | prevHead :: _ =>
      let currentDir := directionRef st in
      let head := advance prevHead currentDir in
      if checkCollision (snake st) head then
        Some (setGameOver st true)
      else
        let newSnake := head :: snake st in
        if strictEq (x head) (x (food st)) && strictEq (y head) (y (food st)) then
          match generateFood (snake st) draws with
          | Some newFood =>
              Some (setSnake (setScore (setFood st newFood) (score st + 10)) newSnake)
          | None => None
          end
        else
          Some (setSnake st (removelast newSnake))
  end.

Definition gameLoop (st : GameState) (draws : list (Q * Q)) : option GameState :=
  if gameOver st || isPaused st then Some st
  else moveSnake st draws.

(** The names of the members of [Object.prototype]. *)
Definition inheritedMember (key : string) : bool :=
  existsb (String.eqb key)
    [ "constructor"; "hasOwnProperty"; "isPrototypeOf"; "propertyIsEnumerable";
      "toLocaleString"; "toString"; "valueOf"; "__proto__";
      "__defineGetter__"; "__defineSetter__"; "__lookupGetter__";
      "__lookupSetter__" ]%string.

(** [keyMap[key]]: an own property, an inherited member, or [undefined]. *)
Definition keyMap (key : string) : option Direction :=
  if String.eqb key "ArrowUp" then Some (Vector 0 (-1))
  else if String.eqb key "ArrowDown" then Some (Vector 0 1)
  else if String.eqb key "ArrowLeft" then Some (Vector (-1) 0)
  else if String.eqb key "ArrowRight" then Some (Vector 1 0)
  else if inheritedMember key then Some (Inherited key)
  else None.

Definition handleKeyPress (key : string) (st : GameState) : GameState :=
  if gameOver st then
    if String.eqb key " " || String.eqb key "Enter" then
      {| snake := INITIAL_SNAKE;
         food := {| x := Int 15; y := Int 15 |};
         gameOver := false;
         score := 0;
         isPaused := false;
         directionRef := INITIAL_DIRECTION |}
    else st
  else if String.eqb key " " || String.eqb key "p" || String.eqb key "P" then
    setIsPaused st (negb (isPaused st))
  else
    match keyMap key with
    | Some newDirection =>
        let currentDir := directionRef st in
        if strictNeq (dirX newDirection) (neg (dirX currentDir))
           && strictNeq (dirY newDirection) (neg (dirY currentDir))
        then setDirectionRef st newDirection
        else st
    | None => st
    end.

Definition exec (e : event) (st : GameState) : option GameState :=
  match e with
  | Tick draws => gameLoop st draws
  | KeyDown key => Some (handleKeyPress key st)
  end.

Fixpoint run (es : list event) (st : GameState) : option GameState :=
  match es with
  | [] => Some st
  | e :: es' =>
      match exec e st with
      | Some st' => run es' st'
      | None => None
      end
  end.

(** An event whose key, if it has one, is not the name of a member of
    [Object.prototype]. *)
Definition plainEvent (e : event) : Prop :=
  match e with
  | Tick _ => True
  | KeyDown key => inheritedMember key = false
  end.

(** The states reached from the initial state by such events. *)
Inductive reachable : GameState -> Prop :=
| reachable_init : reachable initialState
| reachable_exec : forall e st st',
    reachable st -> plainEvent e -> exec e st = Some st' -> reachable st'.

(** Both coordinates are integers in [0, GRID_SIZE). *)
Definition inBounds (p : Position) : Prop :=
  match x p, y p with
  | Int a, Int b => 0 <= a < GRID_SIZE /\ 0 <= b < GRID_SIZE
  | _, _ => False
  end.

(** Both cells have integer coordinates and are orthogonal neighbours. *)
Definition adjacent (p q : Position) : Prop :=
  match x p, y p, x q, y q with
  | Int a, Int b, Int c, Int d => Z.abs (c - a) + Z.abs (d - b) = 1
  | _, _, _, _ => False
  end.

Fixpoint contiguous (l : list Position) : Prop :=
  match l with
  | [] => True
  | p :: rest =>
      match rest with
      | [] => True
      | q :: _ => adjacent q p /\ contiguous rest
      end
  end.

(** The cell holds one of the four vectors of [keyMap]. *)
Definition isDirection (d : Direction) : Prop :=
  d = Vector 1 0 \/ d = Vector (-1) 0 \/ d = Vector 0 1 \/ d = Vector 0 (-1).

End Js.

(** ** From the integer embedding to the embedding on JavaScript values *)

Definition liftPosition (p : Position) : Js.Position :=
  {| Js.x := Js.Int (x p); Js.y := Js.Int (y p) |}.

Definition liftDirection (d : Position) : Js.Direction :=
  Js.Vector (x d) (y d).

Definition lift (st : GameState) : Js.GameState :=
  {| Js.snake := map liftPosition (snake st);
     Js.food := liftPosition (food st);
     Js.gameOver := gameOver st;
     Js.score := score st;
     Js.isPaused := isPaused st;
     Js.directionRef := liftDirection (directionRef st) |}.

(** * Basic facts *)

Lemma Position_eqb_eq (p q : Position) : Position_eqb p q = true <-> p = q.
Proof.
  destruct p as [px py], q as [qx qy]; unfold Position_eqb; simpl.
  rewrite andb_true_iff, !Z.eqb_eq. split.
  - intros [-> ->]; reflexivity.
  - intros E; injection E; auto.
Qed.

Lemma Position_eq_dec (p q : Position) : {p = q} + {p <> q}.
Proof. decide equality; apply Z.eq_dec. Defined.

Section ArraySome.
Context {A : Type}.

(** A callback that ignores the index is a plain [existsb]. *)
Lemma some_from_no_index (g : A -> bool) (l : list A) :
  forall i, some_from (fun a _ => g a) i l = existsb g l.
Proof.
  induction l as [|a l IH]; intros i; simpl; [reflexivity|].
  now rewrite IH.
Qed.

(** A callback that is closed at index 0 and does not depend on the index
    afterwards skips the first element and scans the rest. *)
Lemma some_from_positive (f : A -> nat -> bool) (g : A -> bool) (l : list A) :
  (forall a k, f a (S k) = g a) ->
  forall i, some_from f (S i) l = existsb g l.
Proof.
  intros Hfg. induction l as [|a l IH]; intros i; simpl; [reflexivity|].
  now rewrite Hfg, IH.
Qed.

Lemma array_some_skip_head (f : A -> nat -> bool) (g : A -> bool) (a : A) (l : list A) :
  f a 0%nat = false ->
  (forall b k, f b (S k) = g b) ->
  array_some f (a :: l) = existsb g l.
Proof.
  intros H0 Hfg. unfold array_some; simpl. rewrite H0. simpl.
  now apply some_from_positive.
Qed.
End ArraySome.

Lemma existsb_Position (p : Position) (l : list Position) :
  existsb (fun s => (x s =? x p) && (y s =? y p)) l = true <-> In p l.
Proof.
  rewrite existsb_exists. split.
  - intros [s [Hin Heq]]. apply (Position_eqb_eq s p) in Heq. now subst.
  - intros Hin. exists p. split; [assumption|]. now apply (Position_eqb_eq p p).
Qed.

Lemma on_snake_iff (snake : list Position) (p : Position) :
  array_some (fun segment _ => (x segment =? x p) && (y segment =? y p)) snake = true
  <-> In p snake.
Proof.
  unfold array_some.
  rewrite (some_from_no_index (fun s => (x s =? x p) && (y s =? y p))).
  apply existsb_Position.
Qed.

Lemma wall_test_iff (head : Position) :
  (x head <? 0) || (x head >=? GRID_SIZE) || (y head <? 0) || (y head >=? GRID_SIZE) = false
  <-> inBounds head.
Proof.
  unfold inBounds. rewrite !orb_false_iff, !Z.ltb_ge, !Z.geb_leb, !Z.leb_gt. lia.
Qed.

(** [checkCollision] on a non-empty snake: the head is off the grid or on a
    segment other than the first. *)
Lemma checkCollision_true_iff (prevHead : Position) (body : list Position) (head : Position) :
  checkCollision (prevHead :: body) head = true <-> ~ inBounds head \/ In head body.
Proof.
  unfold checkCollision.
  destruct ((x head <? 0) || (x head >=? GRID_SIZE) || (y head <? 0) || (y head >=? GRID_SIZE))
    eqn:W.
  - split; [intros _; left|reflexivity].
    intros B. apply wall_test_iff in B. congruence.
  - apply wall_test_iff in W.
    rewrite (array_some_skip_head _ (fun s => (x s =? x head) && (y s =? y head)))
      by (intros; simpl; try rewrite andb_assoc; reflexivity).
    rewrite existsb_Position. tauto.
Qed.

Lemma checkCollision_false_iff (prevHead : Position) (body : list Position) (head : Position) :
  checkCollision (prevHead :: body) head = false <-> inBounds head /\ ~ In head body.
Proof.
  rewrite <- not_true_iff_false, checkCollision_true_iff.
  split.
  - intros H. split.
    + destruct (wall_test_iff head) as [_ back].
      destruct ((x head <? 0) || (x head >=? GRID_SIZE) || (y head <? 0) || (y head >=? GRID_SIZE))
        eqn:W.
      * exfalso. apply H. left. intros B. apply back in B. congruence.
      * now apply wall_test_iff.
    + tauto.
  - tauto.
Qed.

(** ** [pop] on lists *)

Section Pop.
Context {A : Type}.

Lemma removelast_cons2 (a b : A) (l : list A) :
  removelast (a :: b :: l) = a :: removelast (b :: l).
Proof. reflexivity. Qed.

Lemma In_removelast (a : A) (l : list A) : In a (removelast l) -> In a l.
Proof.
  induction l as [|b l IH]; simpl; [tauto|].
  destruct l as [|c l]; [simpl; tauto|].
  intros [E | H]; [now left | right; now apply IH].
Qed.

Lemma NoDup_removelast (l : list A) : NoDup l -> NoDup (removelast l).
Proof.
  induction l as [|b l IH]; intros H; [constructor|].
  destruct l as [|c l]; [constructor|].
  rewrite removelast_cons2. inversion H as [|? ? Hb Hl]; subst.
  constructor; [|now apply IH].
  intros Hin. apply Hb. now apply In_removelast.
Qed.

Lemma length_removelast_cons (a : A) (l : list A) :
  List.length (removelast (a :: l)) = List.length l.
Proof.
  revert a. induction l as [|b l IH]; intros a; [reflexivity|].
  rewrite removelast_cons2. cbn [List.length]. now rewrite IH.
Qed.

Lemma nth_error_removelast (l : list A) :
  forall i, (S i < List.length l)%nat -> nth_error (removelast l) i = nth_error l i.
Proof.
  induction l as [|b l IH]; intros i Hi; [simpl in Hi; lia|].
  destruct l as [|c l]; [simpl in Hi; lia|].
  rewrite removelast_cons2. destruct i as [|i]; [reflexivity|].
  cbn [nth_error]. apply IH. cbn [List.length] in *. lia.
Qed.
End Pop.

(** ** Directions *)

Lemma keyMap_isDirection (key : string) (d : Position) :
  keyMap key = Some d -> isDirection d.
Proof.
  unfold keyMap, isDirection.
  repeat match goal with
         | |- context [String.eqb ?a ?b] => destruct (String.eqb a b)
         end;
    intros E; inversion E; subst; tauto.
Qed.

Lemma isDirection_adjacent (p d : Position) :
  isDirection d -> adjacent p (advance p d).
Proof.
  unfold adjacent, advance.
  intros [-> | [-> | [-> | ->]]]; simpl; lia.
Qed.

Lemma isDirection_moves (p d : Position) :
  isDirection d -> advance p d <> p.
Proof.
  intros Hd E. pose proof (isDirection_adjacent p d Hd) as Hadj.
  rewrite E in Hadj. unfold adjacent in Hadj. lia.
Qed.

Lemma handleKeyPress_isDirection (key : string) (st : GameState) :
  isDirection (directionRef st) -> isDirection (directionRef (handleKeyPress key st)).
Proof.
  intros Hd. unfold handleKeyPress.
  destruct (gameOver st).
  - destruct (String.eqb key " " || String.eqb key "Enter"); [|assumption].
    simpl. left. reflexivity.
  - destruct (String.eqb key " " || String.eqb key "p" || String.eqb key "P");
      [assumption|].
    destruct (keyMap key) as [d|] eqn:K; [|assumption].
    destruct (negb (x d =? - x (directionRef st)) && negb (y d =? - y (directionRef st)));
      [|assumption].
    simpl. eapply keyMap_isDirection; eassumption.
Qed.

(** The keyboard listener touches the snake only when it restarts the game. *)
Lemma handleKeyPress_snake (key : string) (st : GameState) :
  snake (handleKeyPress key st) = snake st \/
  snake (handleKeyPress key st) = INITIAL_SNAKE.
Proof.
  unfold handleKeyPress.
  destruct (gameOver st).
  - destruct (String.eqb key " " || String.eqb key "Enter"); simpl; tauto.
  - destruct (String.eqb key " " || String.eqb key "p" || String.eqb key "P");
      [simpl; tauto|].
    destruct (keyMap key) as [d|]; [|tauto].
    destruct (negb (x d =? - x (directionRef st)) && negb (y d =? - y (directionRef st)));
      simpl; tauto.
Qed.

(** ** Unfolding one tick *)

(** The three outcomes of [moveSnake] on a non-empty snake. *)
Lemma moveSnake_collision st draws prevHead body :
  snake st = prevHead :: body ->
  checkCollision (snake st) (advance prevHead (directionRef st)) = true ->
  moveSnake st draws = Some (setGameOver st true).
Proof. intros Hs Hc. unfold moveSnake. rewrite Hs in *. now rewrite Hc. Qed.

Lemma moveSnake_eat st draws prevHead body newFood :
  snake st = prevHead :: body ->
  checkCollision (snake st) (advance prevHead (directionRef st)) = false ->
  advance prevHead (directionRef st) = food st ->
  generateFood (snake st) draws = Some newFood ->
  moveSnake st draws =
    Some (setSnake (setScore (setFood st newFood) (score st + 10))
                   (advance prevHead (directionRef st) :: snake st)).
Proof.
  intros Hs Hc Hf Hg. unfold moveSnake. rewrite Hs in *. rewrite Hc.
  rewrite Hf, !Z.eqb_refl. simpl. now rewrite Hg.
Qed.

Lemma moveSnake_plain st draws prevHead body :
  snake st = prevHead :: body ->
  checkCollision (snake st) (advance prevHead (directionRef st)) = false ->
  advance prevHead (directionRef st) <> food st ->
  moveSnake st draws =
    Some (setSnake st (removelast (advance prevHead (directionRef st) :: snake st))).
Proof.
  intros Hs Hc Hf. unfold moveSnake. rewrite Hs in *. rewrite Hc.
  destruct ((x (advance prevHead (directionRef st)) =? x (food st)) &&
            (y (advance prevHead (directionRef st)) =? y (food st))) eqn:E.
  - exfalso. apply Hf. now apply Position_eqb_eq.
  - reflexivity.
Qed.

Lemma gameLoop_Running st draws :
  phase st = Running -> gameLoop st draws = moveSnake st draws.
Proof.
  unfold phase, gameLoop. destruct (gameOver st), (isPaused st); simpl; congruence.
Qed.

Lemma gameLoop_not_Running st draws :
  phase st <> Running -> gameLoop st draws = Some st.
Proof.
  unfold phase, gameLoop. destruct (gameOver st), (isPaused st); simpl; congruence.
Qed.

(** ** The rejection loop *)

Lemma generateFood_cons snake r rest :
  generateFood snake (r :: rest) =
    if array_some
         (fun segment _ =>
            (x segment =? x (randomCell r)) && (y segment =? y (randomCell r)))
         snake
    then generateFood snake rest
    else Some (randomCell r).
Proof. reflexivity. Qed.

Lemma generateFood_sound snake draws newFood :
  generateFood snake draws = Some newFood -> ~ In newFood snake.
Proof.
  induction draws as [|r rest IH]; [discriminate|].
  rewrite generateFood_cons.
  destruct (array_some _ snake) eqn:E.
  - exact IH.
  - intros H; inversion H; subst. intros Hin.
    apply on_snake_iff in Hin. congruence.
Qed.

Lemma generateFood_drawn snake draws newFood :
  generateFood snake draws = Some newFood ->
  exists r, In r draws /\ newFood = randomCell r.
Proof.
  induction draws as [|r rest IH]; [discriminate|].
  rewrite generateFood_cons.
  destruct (array_some _ snake).
  - intros H. destruct (IH H) as [r' [Hin E]]. exists r'. simpl. tauto.
  - intros H; inversion H. exists r. simpl. tauto.
Qed.

(** The loop stops as soon as the oracle holds one acceptable draw. *)
Lemma generateFood_terminates snake draws :
  Exists (accepted snake) draws ->
  exists newFood, generateFood snake draws = Some newFood.
Proof.
  induction 1 as [r rest Hr | r rest _ IH]; rewrite generateFood_cons.
  - destruct (array_some _ snake) eqn:E.
    + apply on_snake_iff in E. contradiction.
    + eexists; reflexivity.
  - destruct (array_some _ snake); [exact IH | eexists; reflexivity].
Qed.

(** [Math.random()] lies in [0, 1): every candidate is a cell of the grid. *)
Lemma scaled_floor_range (r : Q) :
  (0 <= r)%Q -> (r < 1)%Q -> 0 <= Qfloor (r * inject_Z GRID_SIZE) < GRID_SIZE.
Proof.
  intros Hlo Hhi. unfold GRID_SIZE. split.
  - change 0 with (Qfloor (inject_Z 0)). apply Qfloor_resp_le.
    change (inject_Z 0) with (0 * inject_Z 20)%Q.
    apply Qmult_le_compat_r; [assumption | discriminate].
  - apply Z.lt_nge. intros Hge.
    apply (Qlt_not_le (r * inject_Z 20) (inject_Z 20)).
    + setoid_replace (inject_Z 20) with (1 * inject_Z 20)%Q at 2 by ring.
      apply Qmult_lt_compat_r; [reflexivity | assumption].
    + eapply Qle_trans; [|apply Qfloor_le].
      rewrite <- Zle_Qle. exact Hge.
Qed.

Lemma randomCell_inBounds (r : Q * Q) :
  (0 <= fst r)%Q -> (fst r < 1)%Q -> (0 <= snd r)%Q -> (snd r < 1)%Q ->
  inBounds (randomCell r).
Proof.
  intros. split; simpl; now apply scaled_floor_range.
Qed.

(** * The inductive invariant *)

Lemma Inv_initialState : Inv initialState.
Proof.
  repeat split.
  - left; reflexivity.
  - simpl. repeat constructor. simpl; tauto.
  - discriminate.
Qed.

Lemma moveSnake_Inv st draws st' :
  Inv st -> moveSnake st draws = Some st' -> Inv st'.
Proof.
  unfold Inv. intros (Hd & Hnd & Hne) Hm.
  destruct (snake st) as [|prevHead body] eqn:Hs; [congruence|].
  destruct (checkCollision (snake st) (advance prevHead (directionRef st))) eqn:Hc.
  - rewrite (moveSnake_collision st draws prevHead body Hs Hc) in Hm.
    inversion Hm; subst st'. simpl. rewrite Hs. auto.
  - assert (Hfresh : ~ In (advance prevHead (directionRef st)) (prevHead :: body)).
    { rewrite Hs in Hc. apply checkCollision_false_iff in Hc.
      intros [E | Hin]; [|tauto].
      apply (isDirection_moves prevHead (directionRef st) Hd). now symmetry. }
    destruct (Position_eq_dec (advance prevHead (directionRef st)) (food st)) as [Hf | Hf].
    + destruct (generateFood (snake st) draws) as [newFood|] eqn:Hg.
      * rewrite (moveSnake_eat st draws prevHead body newFood Hs Hc Hf Hg) in Hm.
        inversion Hm; subst st'. simpl. rewrite Hs.
        repeat split; [assumption | now constructor | discriminate].
      * unfold moveSnake in Hm. rewrite Hs in Hm. rewrite <- Hs in Hm.
        rewrite Hc, Hf, !Z.eqb_refl in Hm. simpl in Hm.
        rewrite Hg in Hm. discriminate.
    + rewrite (moveSnake_plain st draws prevHead body Hs Hc Hf) in Hm.
      inversion Hm; subst st'. cbn [snake setSnake directionRef]. rewrite Hs.
      repeat split; [assumption | | discriminate].
      constructor.
      * intros Hin. apply Hfresh. now apply In_removelast.
      * now apply NoDup_removelast.
Qed.

Lemma handleKeyPress_Inv key st : Inv st -> Inv (handleKeyPress key st).
Proof.
  intros (Hd & Hnd & Hne). split; [now apply handleKeyPress_isDirection|].
  destruct (handleKeyPress_snake key st) as [-> | ->]; [tauto|].
  split; [|discriminate].
  repeat constructor. simpl; tauto.
Qed.

Lemma exec_Inv e st st' : Inv st -> exec e st = Some st' -> Inv st'.
Proof.
  intros HI. destruct e as [draws | key]; simpl.
  - unfold gameLoop. destruct (gameOver st || isPaused st).
    + intros E; inversion E; now subst.
    + now apply moveSnake_Inv.
  - intros E; inversion E. now apply handleKeyPress_Inv.
Qed.

Lemma reachable_Inv st : reachable st -> Inv st.
Proof.
  induction 1 as [|e st st' _ IH Hexec]; [apply Inv_initialState|].
  eapply exec_Inv; eassumption.
Qed.

(** A run of events from a reachable state ends in a reachable state. *)
Lemma run_reachable es : forall st st',
  reachable st -> run es st = Some st' -> reachable st'.
Proof.
  induction es as [|e es IH]; intros st st' Hr; simpl.
  - intros E; inversion E; now subst.
  - destruct (exec e st) as [st1|] eqn:He; [|discriminate].
    apply IH. eapply reachable_exec; eassumption.
Qed.

(** * Sample runs *)

Lemma run_trace_eat : run trace_eat initialState = Some state_after_eat.
Proof. vm_compute. reflexivity. Qed.

Lemma reachable_state_after_eat : reachable state_after_eat.
Proof. exact (run_reachable _ _ _ reachable_init run_trace_eat). Qed.

Lemma run_before_eat :
  run (ticks 5 ++ [KeyDown "ArrowDown"] ++ ticks 4) initialState = Some state_before_eat.
Proof. vm_compute. reflexivity. Qed.

Lemma reachable_state_before_eat : reachable state_before_eat.
Proof. exact (run_reachable _ _ _ reachable_init run_before_eat). Qed.

Lemma reachable_state_turned_left : reachable state_turned_left.
Proof.
  apply (reachable_exec (KeyDown "ArrowLeft") state_after_eat);
    [apply reachable_state_after_eat | reflexivity].
Qed.

Lemma reachable_state_reversed : reachable state_reversed.
Proof.
  apply (reachable_exec (KeyDown "ArrowUp") state_turned_left);
    [apply reachable_state_turned_left | reflexivity].
Qed.

Lemma reachable_state_at_wall : reachable state_at_wall.
Proof.
  apply (run_reachable (ticks 9) initialState); [apply reachable_init|].
  vm_compute. reflexivity.
Qed.

(** * The tick *)

(** C4: in a tick delivered while Running, a new head outside
    [0, GRID_SIZE) on either axis ends the game, and the snake, the food and
    the score keep their values from before the tick. *)
Theorem C4_wall_collision_ends_game st draws prevHead body :
  phase st = Running ->
  snake st = prevHead :: body ->
  ~ inBounds (advance prevHead (directionRef st)) ->
  exists st', gameLoop st draws = Some st' /\ endedUnchanged st st'.
Proof.
  intros Hp Hs Hout.
  exists (setGameOver st true). split.
  - rewrite (gameLoop_Running st draws Hp).
    apply (moveSnake_collision st draws prevHead body Hs).
    rewrite Hs. apply checkCollision_true_iff. now left.
  - repeat split.
Qed.

Lemma C4_witness :
  exists st', gameLoop state_at_wall [] = Some st' /\ endedUnchanged state_at_wall st'.
Proof.
  apply (C4_wall_collision_ends_game state_at_wall [] {| x := 19; y := 10 |} []).
  - reflexivity.
  - reflexivity.
  - unfold inBounds, GRID_SIZE. simpl. lia.
Defined.

(** C3: in a tick delivered while Running, a new head (head before the tick
    plus the direction cell) that equals any segment of the snake as it was
    before the tick ends the game and leaves snake, food and score as they
    were. *)
Theorem C3_self_collision_ends_game st draws prevHead body :
  reachable st ->
  phase st = Running ->
  snake st = prevHead :: body ->
  In (advance prevHead (directionRef st)) (snake st) ->
  exists st', gameLoop st draws = Some st' /\ endedUnchanged st st'.
Proof.
  intros Hr Hp Hs Hin.
  destruct (reachable_Inv st Hr) as (Hd & _ & _).
  exists (setGameOver st true). split.
  - rewrite (gameLoop_Running st draws Hp).
    apply (moveSnake_collision st draws prevHead body Hs).
    rewrite Hs in Hin |- *. apply checkCollision_true_iff. right.
    destruct Hin as [E | Hin]; [|assumption].
    exfalso. apply (isDirection_moves prevHead (directionRef st) Hd). now symmetry.
  - repeat split.
Qed.

Lemma C3_witness :
  exists st', gameLoop state_reversed [] = Some st' /\ endedUnchanged state_reversed st'.
Proof.
  apply (C3_self_collision_ends_game state_reversed []
           {| x := 15; y := 15 |} [ {| x := 15; y := 14 |} ]).
  - apply reachable_state_reversed.
  - reflexivity.
  - reflexivity.
  - simpl. right. left. reflexivity.
Defined.

(** C6: in a tick whose new head is on the food and hits neither a wall nor
    the snake, the score goes up by exactly 10 and the snake grows by exactly
    one segment: the new head is put in front and no tail is removed.  The
    tick completes as soon as the oracle holds a draw off the snake. *)
Theorem C6_eating_scores_and_grows st draws prevHead body :
  phase st = Running ->
  snake st = prevHead :: body ->
  checkCollision (snake st) (advance prevHead (directionRef st)) = false ->
  advance prevHead (directionRef st) = food st ->
  Exists (accepted (snake st)) draws ->
  exists st',
    gameLoop st draws = Some st' /\
    score st' = score st + 10 /\
    snake st' = advance prevHead (directionRef st) :: snake st /\
    List.length (snake st') = S (List.length (snake st)) /\
    phase st' = Running.
Proof.
  intros Hp Hs Hc Hf Hdraw.
  destruct (generateFood_terminates (snake st) draws Hdraw) as [newFood Hg].
  eexists. split.
  - rewrite (gameLoop_Running st draws Hp).
    apply (moveSnake_eat st draws prevHead body newFood Hs Hc Hf Hg).
  - cbn [score snake setSnake setScore setFood]. repeat split.
    unfold phase in *. simpl. exact Hp.
Qed.

Lemma C6_witness :
  exists st',
    gameLoop state_before_eat [(0, 0)%Q] = Some st' /\
    score st' = score state_before_eat + 10 /\
    snake st' = advance {| x := 15; y := 14 |} (directionRef state_before_eat)
                  :: snake state_before_eat /\
    List.length (snake st') = S (List.length (snake state_before_eat)) /\
    phase st' = Running.
Proof.
  apply (C6_eating_scores_and_grows state_before_eat [(0, 0)%Q] {| x := 15; y := 14 |} []).
  - reflexivity.
  - reflexivity.
  - reflexivity.
  - reflexivity.
  - apply Exists_cons_hd. unfold accepted. vm_compute.
    intros [E | []]. discriminate E.
Defined.

(** C9, as stated, fails on a bent snake: after the meal at (15,15) the
    snake lies on (15,15),(15,14); the player turns left and the next tick
    moves the head to (14,15) while the second segment goes down to (15,15),
    not left to (14,14). *)
Lemma C9_counterexample :
  reachable state_turned_left /\
  phase state_turned_left = Running /\
  checkCollision (snake state_turned_left)
    (advance {| x := 15; y := 15 |} (directionRef state_turned_left)) = false /\
  advance {| x := 15; y := 15 |} (directionRef state_turned_left)
    <> food state_turned_left /\
  exists st',
    gameLoop state_turned_left [] = Some st' /\
    snake st' = [ {| x := 14; y := 15 |}; {| x := 15; y := 15 |} ] /\
    ~ shiftedBy (directionRef state_turned_left) (snake state_turned_left) (snake st').
Proof.
  split; [apply reachable_state_turned_left|].
  split; [reflexivity|].
  split; [reflexivity|].
  split; [discriminate|].
  eexists. split; [reflexivity|].
  split; [reflexivity|].
  unfold shiftedBy. discriminate.
Qed.

(** C9, amended: in a tick delivered while Running that hits nothing and
    eats nothing, the head moves by exactly one cell in the direction of the
    direction cell, every other segment takes the cell that the segment in
    front of it held before the tick, and the length is unchanged; a tick
    that hits nothing changes the length only when the food is eaten. *)
Theorem C9_plain_move_follows_head st draws prevHead body :
  reachable st ->
  phase st = Running ->
  snake st = prevHead :: body ->
  checkCollision (snake st) (advance prevHead (directionRef st)) = false ->
  advance prevHead (directionRef st) <> food st ->
  exists st',
    gameLoop st draws = Some st' /\
    snake st' = advance prevHead (directionRef st) :: removelast (snake st) /\
    adjacent prevHead (advance prevHead (directionRef st)) /\
    (forall i, (S i < List.length (snake st))%nat ->
               nth_error (snake st') (S i) = nth_error (snake st) i) /\
    List.length (snake st') = List.length (snake st) /\
    food st' = food st /\ score st' = score st /\ phase st' = Running.
Proof.
  intros Hr Hp Hs Hc Hf.
  destruct (reachable_Inv st Hr) as (Hd & _ & _).
  eexists. split.
  - rewrite (gameLoop_Running st draws Hp).
    apply (moveSnake_plain st draws prevHead body Hs Hc Hf).
  - cbn [snake food score setSnake]. rewrite Hs, removelast_cons2.
    split; [reflexivity|].
    split; [now apply isDirection_adjacent|].
    split; [intros i Hi; cbn [nth_error]; now apply nth_error_removelast|].
    split; [cbn [List.length]; now rewrite length_removelast_cons|].
    repeat split. unfold phase in *. simpl. exact Hp.
Qed.

Lemma C9_witness :
  exists st',
    gameLoop state_turned_left [] = Some st' /\
    snake st' = advance {| x := 15; y := 15 |} (directionRef state_turned_left)
                  :: removelast (snake state_turned_left) /\
    adjacent {| x := 15; y := 15 |}
             (advance {| x := 15; y := 15 |} (directionRef state_turned_left)) /\
    (forall i, (S i < List.length (snake state_turned_left))%nat ->
               nth_error (snake st') (S i) = nth_error (snake state_turned_left) i) /\
    List.length (snake st') = List.length (snake state_turned_left) /\
    food st' = food state_turned_left /\ score st' = score state_turned_left /\
    phase st' = Running.
Proof.
  apply (C9_plain_move_follows_head state_turned_left []
           {| x := 15; y := 15 |} [ {| x := 15; y := 14 |} ]).
  - apply reachable_state_turned_left.
  - reflexivity.
  - reflexivity.
  - reflexivity.
  - discriminate.
Defined.

(** * Invariants of the reachable states *)


(** C5: in every reachable state whose phase is not GameOver the segments of
    the snake are pairwise distinct and there is at least one segment; and
    whatever event is handled next (a tick, a direction key, a pause key, a
    restart key), the state it produces has the same property. *)
Theorem C5_snake_segments_distinct st :
  reachable st ->
  (phase st <> GameOver -> snakeInvariant st) /\
  (forall e st', exec e st = Some st' -> snakeInvariant st').
Proof.
  assert (Hinv : forall s, reachable s -> snakeInvariant s).
  { intros s Hs. destruct (reachable_Inv s Hs) as (_ & Hnd & Hne).
    split; [assumption|].
    destruct (snake s); [congruence | simpl; lia]. }
  intros Hr. split.
  - intros _. now apply Hinv.
  - intros e st' He. apply Hinv. eapply reachable_exec; eassumption.
Qed.

Lemma C5_witness :
  snakeInvariant state_after_eat /\
  snakeInvariant state_turned_left.
Proof.
  destruct (C5_snake_segments_distinct state_after_eat reachable_state_after_eat)
    as [Hnow Hnext].
  split.
  - apply Hnow. discriminate.
  - apply (Hnext (KeyDown "ArrowLeft")). reflexivity.
Defined.

(** * Phases *)

Lemma restart_test_iff key :
  String.eqb key " " || String.eqb key "Enter" = true <-> isRestartKey key.
Proof. unfold isRestartKey. now rewrite orb_true_iff, !String.eqb_eq. Qed.

Lemma pause_test_iff key :
  String.eqb key " " || String.eqb key "p" || String.eqb key "P" = true <-> isPauseKey key.
Proof. unfold isPauseKey. rewrite !orb_true_iff, !String.eqb_eq. tauto. Qed.

Lemma handleKeyPress_GameOver key st :
  phase st = GameOver ->
  handleKeyPress key st =
    if String.eqb key " " || String.eqb key "Enter" then initialState else st.
Proof.
  unfold phase, handleKeyPress. destruct (gameOver st) eqn:G.
  - reflexivity.
  - destruct (isPaused st); discriminate.
Qed.

Lemma handleKeyPress_phase key st :
  transition st (KeyDown key) (phase st) (phase (handleKeyPress key st)).
Proof.
  unfold handleKeyPress, phase.
  destruct (gameOver st) eqn:G.
  - destruct (String.eqb key " " || String.eqb key "Enter") eqn:K.
    + simpl. apply tr_reset. now apply restart_test_iff.
    + rewrite G. apply tr_stay.
  - destruct (String.eqb key " " || String.eqb key "p" || String.eqb key "P") eqn:K.
    + apply pause_test_iff in K. simpl. rewrite G.
      destruct (isPaused st); simpl; [now apply tr_resume | now apply tr_pause].
    + destruct (keyMap key) as [d|]; [|rewrite G; apply tr_stay].
      destruct (negb (x d =? - x (directionRef st)) && negb (y d =? - y (directionRef st)));
        simpl; rewrite G; apply tr_stay.
Qed.

Lemma moveSnake_phase st draws st' :
  phase st = Running ->
  moveSnake st draws = Some st' ->
  transition st (Tick draws) Running (phase st').
Proof.
  intros Hp Hm. unfold moveSnake in Hm.
  destruct (snake st) as [|prevHead body] eqn:Hs.
  - inversion Hm; subst st'. rewrite Hp. apply tr_stay.
  - rewrite <- Hs in Hm.
    destruct (checkCollision (snake st) (advance prevHead (directionRef st))) eqn:Hc.
    + inversion Hm; subst st'. unfold phase; simpl.
      now apply (tr_collision st draws prevHead body).
    + assert (Hkeep : forall s, gameOver s = gameOver st -> isPaused s = isPaused st ->
                                phase s = Running).
      { intros s Hg Hi. unfold phase in *. now rewrite Hg, Hi. }
      destruct ((x (advance prevHead (directionRef st)) =? x (food st)) &&
                (y (advance prevHead (directionRef st)) =? y (food st))).
      * destruct (generateFood (snake st) draws); [|discriminate].
        inversion Hm; subst st'. rewrite Hkeep by reflexivity. apply tr_stay.
      * inversion Hm; subst st'. rewrite Hkeep by reflexivity. apply tr_stay.
Qed.

(** C8: the phase moves only from Running to Paused and back on a pause
    key, from Running to GameOver on a collision inside a tick, and from
    GameOver to Running on a restart key.  In GameOver every event other
    than a restart key leaves the whole state as it is; a pause key pressed
    in GameOver toggles nothing (the space bar, which is also the restart
    key, restarts instead); and a timer period in a phase other than Running
    processes no tick. *)
Theorem C8_phase_state_machine e st st' :
  exec e st = Some st' ->
  transition st e (phase st) (phase st') /\
  (phase st = GameOver ->
   (forall key, e = KeyDown key -> ~ isRestartKey key) -> st' = st) /\
  (phase st = GameOver ->
   forall key, e = KeyDown key -> isPauseKey key ->
               st' = st \/ (isRestartKey key /\ st' = initialState)) /\
  (phase st <> Running -> forall draws, e = Tick draws -> st' = st).
Proof.
  intros He. split; [|split; [|split]].
  - destruct e as [draws | key]; simpl in He.
    + destruct (phase st) eqn:Hp.
      * rewrite (gameLoop_Running st draws Hp) in He.
        now apply moveSnake_phase.
      * rewrite gameLoop_not_Running in He by congruence.
        inversion He; subst st'. rewrite Hp. apply tr_stay.
      * rewrite gameLoop_not_Running in He by congruence.
        inversion He; subst st'. rewrite Hp. apply tr_stay.
    + inversion He; subst st'. apply handleKeyPress_phase.
  - intros Hp Hkey. destruct e as [draws | key]; simpl in He.
    + rewrite gameLoop_not_Running in He by congruence. now inversion He.
    + rewrite (handleKeyPress_GameOver key st Hp) in He.
      destruct (String.eqb key " " || String.eqb key "Enter") eqn:K.
      * apply restart_test_iff in K. exfalso. now apply (Hkey key).
      * now inversion He.
  - intros Hp key -> _. simpl in He.
    rewrite (handleKeyPress_GameOver key st Hp) in He.
    destruct (String.eqb key " " || String.eqb key "Enter") eqn:K.
    + right. apply restart_test_iff in K. split; [assumption | now inversion He].
    + left. now inversion He.
  - intros Hp draws ->. simpl in He.
    rewrite gameLoop_not_Running in He by assumption. now inversion He.
Qed.

Lemma C8_witness :
  transition state_after_eat (KeyDown "p")
    (phase state_after_eat) (phase (handleKeyPress "p" state_after_eat)) /\
  phase state_after_eat = Running /\
  phase (handleKeyPress "p" state_after_eat) = Paused.
Proof.
  split.
  - apply (C8_phase_state_machine (KeyDown "p") state_after_eat
             (handleKeyPress "p" state_after_eat)).
    reflexivity.
  - split; reflexivity.
Defined.

(** Out of GameOver the phase can only go to Running, and only on a restart
    key. *)
Lemma transition_from_GameOver st e p :
  transition st e GameOver p ->
  p = GameOver \/ (p = Running /\ exists key, e = KeyDown key /\ isRestartKey key).
Proof.
  intros H. inversion H; subst; [now left|].
  right. split; [reflexivity|]. eexists; split; [reflexivity | assumption].
Qed.

(** * Direction requests *)

(** What the guard of [handleKeyPress] does achieve: a request for the
    opposite of the direction now held in the cell is dropped. *)
Lemma opposite_of_cell_rejected key d st :
  keyMap key = Some d ->
  d = opposite (directionRef st) ->
  directionRef (handleKeyPress key st) = directionRef st.
Proof.
  intros K ->. unfold handleKeyPress.
  destruct (gameOver st).
  - destruct (String.eqb key " " || String.eqb key "Enter") eqn:R; [|reflexivity].
    exfalso. apply restart_test_iff in R. destruct R as [-> | ->]; discriminate K.
  - destruct (String.eqb key " " || String.eqb key "p" || String.eqb key "P");
      [reflexivity|].
    rewrite K. cbn [opposite x y]. rewrite Z.eqb_refl. reflexivity.
Qed.

(** The cell is the only record of the direction: the guard compares with
    the last accepted request, not with the direction of the last move.  A
    perpendicular request followed by the reverse one gets through. *)
Lemma two_presses_reverse st :
  gameOver st = false ->
  isDirection (directionRef st) ->
  exists k1 k2,
    directionRef (handleKeyPress k2 (handleKeyPress k1 st)) = opposite (directionRef st).
Proof.
  destruct st as [s f g sc p d]. simpl. intros -> Hd.
  destruct Hd as [-> | [-> | [-> | ->]]].
  - exists "ArrowUp"%string, "ArrowLeft"%string. reflexivity.
  - exists "ArrowUp"%string, "ArrowRight"%string. reflexivity.
  - exists "ArrowLeft"%string, "ArrowUp"%string. reflexivity.
  - exists "ArrowLeft"%string, "ArrowDown"%string. reflexivity.
Qed.

(** C1 on the code: the tick that eats the first food moves the snake down
    and leaves it on (15,15),(15,14).  Before the next tick the player
    presses ArrowLeft and then ArrowUp.  Both requests are accepted, the
    cell ends on the opposite of the direction of the last move, and the
    next tick drives the head into the second segment. *)
Theorem C1_reversal_between_two_ticks :
  run trace_eat initialState = Some state_after_eat /\
  directionRef state_after_eat = {| x := 0; y := 1 |} /\
  run [KeyDown "ArrowLeft"; KeyDown "ArrowUp"] state_after_eat = Some state_reversed /\
  directionRef state_reversed = opposite (directionRef state_after_eat) /\
  advance {| x := 15; y := 15 |} (directionRef state_reversed) = {| x := 15; y := 14 |} /\
  snake state_reversed = [ {| x := 15; y := 15 |}; {| x := 15; y := 14 |} ] /\
  exists st', gameLoop state_reversed [] = Some st' /\ phase st' = GameOver.
Proof.
  split; [apply run_trace_eat|].
  repeat (split; [reflexivity|]).
  eexists. split; reflexivity.
Qed.

(** * Food placement *)

(** What the rejection loop does achieve on a meal: the new food is off
    every segment of the snake as it was before the tick. *)
Lemma eaten_food_off_previous_snake st draws st' prevHead body :
  phase st = Running ->
  snake st = prevHead :: body ->
  checkCollision (snake st) (advance prevHead (directionRef st)) = false ->
  advance prevHead (directionRef st) = food st ->
  gameLoop st draws = Some st' ->
  ~ In (food st') (snake st) /\
  generateFood (snake st) draws = Some (food st').
Proof.
  intros Hp Hs Hc Hf Hg.
  rewrite (gameLoop_Running st draws Hp) in Hg.
  destruct (generateFood (snake st) draws) as [newFood|] eqn:Hgen.
  - rewrite (moveSnake_eat st draws prevHead body newFood Hs Hc Hf Hgen) in Hg.
    inversion Hg; subst st'. cbn [food setSnake setScore setFood].
    split; [now apply (generateFood_sound (snake st) draws) | reflexivity].
  - unfold moveSnake in Hg. rewrite Hs in Hg. rewrite <- Hs in Hg.
    rewrite Hc, Hf, !Z.eqb_refl in Hg. simpl in Hg. rewrite Hgen in Hg.
    discriminate.
Qed.

(** C2 on the code: one tick before the first meal the snake is the single
    segment (15,14) moving down onto the food at (15,15).  The oracle draws
    0.75 twice, the candidate (15,15) is compared with the snake as it was
    before the tick and is accepted: the new food lies under the new head. *)
Theorem C2_new_food_under_new_head :
  reachable state_before_eat /\
  randomCell (3 # 4, 3 # 4)%Q = {| x := 15; y := 15 |} /\
  exists st',
    gameLoop state_before_eat [(3 # 4, 3 # 4)%Q] = Some st' /\
    snake st' = [ {| x := 15; y := 15 |}; {| x := 15; y := 14 |} ] /\
    score st' = 10 /\
    food st' = {| x := 15; y := 15 |} /\
    In (food st') (snake st').
Proof.
  split; [apply reachable_state_before_eat|].
  split; [reflexivity|].
  eexists. split; [vm_compute; reflexivity|].
  repeat (split; [reflexivity|]).
  left. reflexivity.
Qed.


(** * Shape of the reachable snakes *)

Lemma Forall_removelast {A : Type} (P : A -> Prop) (l : list A) :
  Forall P l -> Forall P (removelast l).
Proof.
  intros H. apply Forall_forall. intros a Ha.
  apply In_removelast in Ha. revert a Ha. now apply Forall_forall.
Qed.

Lemma contiguous_cons (p q : Position) (rest : list Position) :
  contiguous (p :: q :: rest) <-> adjacent q p /\ contiguous (q :: rest).
Proof. reflexivity. Qed.

Lemma contiguous_removelast (l : list Position) :
  contiguous l -> contiguous (removelast l).
Proof.
  induction l as [|p l IH]; [trivial|].
  destruct l as [|q l]; [trivial|].
  intros [Hadj Hrest]. rewrite removelast_cons2.
  destruct l as [|r l]; [exact I|].
  rewrite removelast_cons2 in *. split; [assumption|]. now apply IH.
Qed.

Lemma Shape_initialState : Shape initialState.
Proof.
  repeat split; simpl; try lia.
  repeat constructor; unfold GRID_SIZE; simpl; lia.
Qed.

Lemma moveSnake_Shape st draws st' :
  Inv st -> Shape st -> moveSnake st draws = Some st' -> Shape st'.
Proof.
  unfold Shape. intros (Hd & _ & _) (Hin & Hcont & Hscore) Hm.
  destruct (snake st) as [|prevHead body] eqn:Hs.
  - unfold moveSnake in Hm. rewrite Hs in Hm. inversion Hm; subst st'.
    rewrite Hs. auto.
  - destruct (checkCollision (snake st) (advance prevHead (directionRef st))) eqn:Hc.
    + rewrite (moveSnake_collision st draws prevHead body Hs Hc) in Hm.
      inversion Hm; subst st'. cbn [snake score setGameOver]. rewrite Hs. auto.
    + assert (Hhead : inBounds (advance prevHead (directionRef st))).
      { rewrite Hs in Hc. now apply checkCollision_false_iff in Hc. }
      assert (Hadj : adjacent prevHead (advance prevHead (directionRef st)))
        by now apply isDirection_adjacent.
      destruct (Position_eq_dec (advance prevHead (directionRef st)) (food st))
        as [Hf | Hf].
      * destruct (generateFood (snake st) draws) as [newFood|] eqn:Hg.
        -- rewrite (moveSnake_eat st draws prevHead body newFood Hs Hc Hf Hg) in Hm.
           inversion Hm; subst st'. cbn [snake score setSnake setScore setFood].
           rewrite Hs. split; [now constructor|]. split; [now split|].
           rewrite Hscore. cbn [List.length]. lia.
        -- unfold moveSnake in Hm. rewrite Hs in Hm. rewrite <- Hs in Hm.
           rewrite Hc, Hf, !Z.eqb_refl in Hm. simpl in Hm.
           rewrite Hg in Hm. discriminate.
      * rewrite (moveSnake_plain st draws prevHead body Hs Hc Hf) in Hm.
        inversion Hm; subst st'. cbn [snake score setSnake]. rewrite Hs.
        split; [|split].
        -- constructor; [assumption | now apply Forall_removelast].
        -- apply (contiguous_removelast (_ :: prevHead :: body)). now split.
        -- rewrite Hscore. cbn [List.length].
           now rewrite length_removelast_cons.
Qed.

(** A key press keeps snake and score, or puts the initial state back. *)
Lemma handleKeyPress_snake_score key st :
  (snake (handleKeyPress key st) = snake st /\
   score (handleKeyPress key st) = score st) \/
  handleKeyPress key st = initialState.
Proof.
  unfold handleKeyPress.
  destruct (gameOver st).
  - destruct (String.eqb key " " || String.eqb key "Enter"); [now right | now left].
  - left.
    destruct (String.eqb key " " || String.eqb key "p" || String.eqb key "P");
      [now split|].
    destruct (keyMap key) as [d|]; [|now split].
    destruct (negb (x d =? - x (directionRef st)) && negb (y d =? - y (directionRef st)));
      now split.
Qed.

Lemma handleKeyPress_Shape key st : Shape st -> Shape (handleKeyPress key st).
Proof.
  intros HS. destruct (handleKeyPress_snake_score key st) as [[Hsn Hsc] | ->].
  - unfold Shape in *. now rewrite Hsn, Hsc.
  - apply Shape_initialState.
Qed.

Lemma reachable_Shape st : reachable st -> Shape st.
Proof.
  induction 1 as [|e st st' Hr IH Hexec]; [apply Shape_initialState|].
  destruct e as [draws | key]; simpl in Hexec.
  - unfold gameLoop in Hexec. destruct (gameOver st || isPaused st).
    + inversion Hexec; now subst.
    + eapply moveSnake_Shape; [apply reachable_Inv| |]; eassumption.
  - inversion Hexec. now apply handleKeyPress_Shape.
Qed.

(** The grid has room for four hundred distinct cells. *)
Lemma indexOfCell_range (p : Position) :
  inBounds p -> 0 <= indexOfCell p < GRID_SIZE * GRID_SIZE.
Proof. unfold inBounds, indexOfCell, GRID_SIZE. intros [Hx Hy]. lia. Qed.

Lemma indexOfCell_injective (p q : Position) :
  inBounds p -> inBounds q -> indexOfCell p = indexOfCell q -> p = q.
Proof.
  destruct p as [px py], q as [qx qy].
  unfold inBounds, indexOfCell, GRID_SIZE. simpl.
  intros [Hpx Hpy] [Hqx Hqy] E.
  assert (py = qy) by lia. subst. assert (px = qx) by lia. now subst.
Qed.

Lemma distinct_cells_bound (l : list Position) :
  NoDup l -> Forall inBounds l -> (List.length l <= 400)%nat.
Proof.
  intros Hnd Hin. rewrite Forall_forall in Hin.
  assert (Hnd' : NoDup (map (fun p => Z.to_nat (indexOfCell p)) l)).
  { apply NoDup_map_NoDup_ForallPairs; [|assumption].
    intros p q Hp Hq E.
    apply indexOfCell_injective; auto.
    pose proof (indexOfCell_range p (Hin p Hp)).
    pose proof (indexOfCell_range q (Hin q Hq)). lia. }
  assert (Hincl : incl (map (fun p => Z.to_nat (indexOfCell p)) l) (seq 0 400)).
  { intros n Hn. apply in_map_iff in Hn. destruct Hn as [p [<- Hp]].
    apply in_seq. pose proof (indexOfCell_range p (Hin p Hp)) as R.
    unfold GRID_SIZE in R. lia. }
  pose proof (NoDup_incl_length Hnd' Hincl) as Hlen.
  now rewrite length_map, length_seq in Hlen.
Qed.

(** X1: in every reachable state the score is ten times the number of
    segments after the first. *)
Theorem score_counts_segments st :
  reachable st ->
  score st = 10 * (Z.of_nat (List.length (snake st)) - 1).
Proof. intros Hr. now destruct (reachable_Shape st Hr) as (_ & _ & H). Qed.

Lemma score_counts_segments_witness :
  score state_after_eat = 10 * (Z.of_nat (List.length (snake state_after_eat)) - 1).
Proof.
  apply (score_counts_segments state_after_eat). apply reachable_state_after_eat.
Defined.


(** X4: in every reachable state the snake has at most 400 segments and the
    score lies between 0 and 3990. *)
Theorem snake_and_score_bounded st :
  reachable st ->
  (List.length (snake st) <= 400)%nat /\ 0 <= score st <= 3990.
Proof.
  intros Hr.
  destruct (reachable_Shape st Hr) as (Hin & _ & Hscore).
  destruct (reachable_Inv st Hr) as (_ & Hnd & Hne).
  pose proof (distinct_cells_bound (snake st) Hnd Hin) as Hlen.
  split; [assumption|].
  destruct (snake st); [congruence|]. simpl List.length in *. lia.
Qed.

Lemma snake_and_score_bounded_witness :
  (List.length (snake state_after_eat) <= 400)%nat /\
  0 <= score state_after_eat <= 3990.
Proof.
  apply (snake_and_score_bounded state_after_eat). apply reachable_state_after_eat.
Defined.

(** * More on the rejection loop *)

Lemma randomCell_foodDraw st : randomCell (foodDraw st) = food st.
Proof.
  destruct st as [s [fx fy] g sc p d].
  unfold randomCell, foodDraw, Qfloor, Qmult, inject_Z, GRID_SIZE. simpl.
  now rewrite !Z.div_mul by discriminate.
Qed.

(** X5: the loop returns the candidate of the first draw that is off the
    snake, whatever was rejected before it and whatever would follow. *)
Theorem generateFood_first_accepted snake rejected r rest :
  Forall (fun r' => In (randomCell r') snake) rejected ->
  accepted snake r ->
  generateFood snake (rejected ++ r :: rest) = Some (randomCell r).
Proof.
  intros Hrej Hacc. induction Hrej as [|r' rejected Hr' _ IH].
  - simpl app. rewrite generateFood_cons.
    destruct (array_some _ snake) eqn:E; [|reflexivity].
    apply on_snake_iff in E. contradiction.
  - simpl app. rewrite generateFood_cons.
    apply on_snake_iff in Hr'. now rewrite Hr'.
Qed.

Lemma generateFood_first_accepted_witness :
  generateFood [ {| x := 15; y := 14 |} ]
    ([(3 # 4, 7 # 10)%Q] ++ (1 # 2, 1 # 2)%Q :: [(0, 0)%Q])
  = Some (randomCell (1 # 2, 1 # 2)%Q).
Proof.
  apply (generateFood_first_accepted [ {| x := 15; y := 14 |} ]
           [(3 # 4, 7 # 10)%Q] (1 # 2, 1 # 2)%Q [(0, 0)%Q]).
  - constructor; [|constructor]. vm_compute. left. reflexivity.
  - unfold accepted. vm_compute. intros [E | []]. discriminate E.
Defined.

(** The loop gives up exactly when every draw of the oracle lands on the
    snake. *)
Lemma generateFood_None_rejected snake draws :
  generateFood snake draws = None <->
  Forall (fun r => In (randomCell r) snake) draws.
Proof.
  induction draws as [|r rest IH].
  - split; [constructor | reflexivity].
  - rewrite generateFood_cons.
    destruct (array_some _ snake) eqn:E.
    + apply on_snake_iff in E. rewrite IH. split.
      * intros H. now constructor.
      * intros H. now inversion H.
    + split; [discriminate|].
      intros H. inversion H as [|? ? Hr _]; subst.
      apply on_snake_iff in Hr. congruence.
Qed.

(** X6: the loop returns a position exactly when the oracle holds at least
    one draw whose candidate is off the snake. *)
Theorem generateFood_returns_iff snake draws :
  (exists newFood, generateFood snake draws = Some newFood) <->
  Exists (accepted snake) draws.
Proof.
  split.
  - intros [newFood Hg].
    destruct (generateFood_drawn snake draws newFood Hg) as [r [Hin ->]].
    apply Exists_exists. exists r. split; [assumption|].
    now apply (generateFood_sound snake draws).
  - apply generateFood_terminates.
Qed.

(** X7: with draws that [Math.random()] can return, an accepted food
    position is a cell of the grid that the captured snake does not
    occupy. *)
Theorem generateFood_on_grid_off_snake snake draws newFood :
  Forall validDraw draws ->
  generateFood snake draws = Some newFood ->
  inBounds newFood /\ ~ In newFood snake.
Proof.
  intros Hvalid Hg. split.
  - destruct (generateFood_drawn snake draws newFood Hg) as [r [Hin ->]].
    rewrite Forall_forall in Hvalid.
    destruct (Hvalid r Hin) as (H1 & H2 & H3 & H4).
    now apply randomCell_inBounds.
  - now apply (generateFood_sound snake draws).
Qed.

Lemma generateFood_on_grid_off_snake_witness :
  inBounds {| x := 10; y := 10 |} /\
  ~ In {| x := 10; y := 10 |} [ {| x := 15; y := 14 |} ].
Proof.
  apply (generateFood_on_grid_off_snake [ {| x := 15; y := 14 |} ]
           [(3 # 4, 7 # 10)%Q; (1 # 2, 1 # 2)%Q]).
  - repeat constructor; simpl; unfold Qle, Qlt; simpl; lia.
  - vm_compute. reflexivity.
Defined.

(** X8: on a snake that covers the whole grid the loop accepts no draw that
    [Math.random()] can return: it never leaves the do-while. *)
Theorem generateFood_full_board snake draws :
  (forall p, inBounds p -> In p snake) ->
  Forall validDraw draws ->
  generateFood snake draws = None.
Proof.
  intros Hfull Hvalid. apply generateFood_None_rejected.
  apply Forall_forall. intros r Hr. rewrite Forall_forall in Hvalid.
  destruct (Hvalid r Hr) as (H1 & H2 & H3 & H4).
  apply Hfull. now apply randomCell_inBounds.
Qed.

(** X9: in a reachable state a tick can always complete: when it eats, the
    cell that held the food is itself off the captured snake, so the draw
    that lands on it is accepted. *)
Theorem tick_can_complete st :
  reachable st -> exists st', gameLoop st [foodDraw st] = Some st'.
Proof.
  intros Hr. destruct (reachable_Inv st Hr) as (Hd & _ & Hne).
  unfold gameLoop. destruct (gameOver st || isPaused st); [eexists; reflexivity|].
  destruct (snake st) as [|prevHead body] eqn:Hs; [congruence|].
  destruct (checkCollision (snake st) (advance prevHead (directionRef st))) eqn:Hc.
  - eexists. now apply (moveSnake_collision st _ prevHead body).
  - destruct (Position_eq_dec (advance prevHead (directionRef st)) (food st))
      as [Hf | Hf].
    + eexists. apply (moveSnake_eat st _ prevHead body (food st) Hs Hc Hf).
      assert (Hfree : ~ In (food st) (snake st)).
      { rewrite <- Hf, Hs. rewrite Hs in Hc.
        apply checkCollision_false_iff in Hc.
        intros [E | Hin]; [|tauto].
        apply (isDirection_moves prevHead (directionRef st) Hd). now symmetry. }
      rewrite generateFood_cons, randomCell_foodDraw.
      destruct (array_some _ (snake st)) eqn:E; [|reflexivity].
      apply on_snake_iff in E. contradiction.
    + eexists. now apply (moveSnake_plain st _ prevHead body).
Qed.

Lemma tick_can_complete_witness :
  exists st', gameLoop state_before_eat [foodDraw state_before_eat] = Some st'.
Proof.
  apply (tick_can_complete state_before_eat). apply reachable_state_before_eat.
Defined.

Lemma fullBoard_complete (p : Position) : inBounds p -> In p fullBoard.
Proof.
  destruct p as [px py]. unfold inBounds, fullBoard, GRID_SIZE. simpl x; simpl y.
  intros [Hx Hy]. apply in_map_iff. exists (Z.to_nat (py * 20 + px)). split.
  - rewrite Z2Nat.id by lia.
    assert (Hm : (py * 20 + px) mod 20 = px).
    { rewrite Z.add_comm, Z.mod_add by discriminate. apply Z.mod_small. lia. }
    assert (Hq : (py * 20 + px) / 20 = py).
    { rewrite Z.add_comm, Z.div_add by discriminate.
      rewrite Z.div_small by lia. lia. }
    now rewrite Hm, Hq.
  - apply in_seq. change (Z.to_nat (20 * 20)) with 400%nat. lia.
Qed.

Lemma generateFood_full_board_witness :
  generateFood fullBoard [(1 # 2, 1 # 2)%Q; (0, 19 # 20)%Q] = None.
Proof.
  apply (generateFood_full_board fullBoard [(1 # 2, 1 # 2)%Q; (0, 19 # 20)%Q]).
  - exact fullBoard_complete.
  - repeat constructor; simpl; unfold Qle, Qlt; simpl; lia.
Defined.

(** * What one tick and one key can change *)

(** X10: [checkCollision] answers true exactly when the head is off the
    grid or on a segment other than the first; the first segment, and an
    empty snake, never count. *)
Theorem checkCollision_spec snake head :
  checkCollision snake head = true <-> ~ inBounds head \/ In head (tl snake).
Proof.
  destruct snake as [|prevHead body].
  - unfold checkCollision. simpl tl.
    destruct ((x head <? 0) || (x head >=? GRID_SIZE) || (y head <? 0) || (y head >=? GRID_SIZE))
      eqn:W.
    + split; [intros _; left|reflexivity].
      intros B. apply wall_test_iff in B. congruence.
    + apply wall_test_iff in W. simpl. split; [discriminate | tauto].
  - apply checkCollision_true_iff.
Qed.

(** X11: a tick that completes leaves the direction cell and the pause flag
    alone, and either keeps food, score and length, or eats: the new first
    segment is the cell the food was on, the score is 10 higher and the
    snake one segment longer. *)
Theorem tick_keeps_or_eats st draws st' :
  gameLoop st draws = Some st' ->
  directionRef st' = directionRef st /\ isPaused st' = isPaused st /\
  ((food st' = food st /\ score st' = score st /\
    List.length (snake st') = List.length (snake st)) \/
   (hd_error (snake st') = Some (food st) /\ score st' = score st + 10 /\
    List.length (snake st') = S (List.length (snake st)))).
Proof.
  unfold gameLoop. destruct (gameOver st || isPaused st).
  - intros E; inversion E; subst. repeat split. left. repeat split.
  - unfold moveSnake. destruct (snake st) as [|prevHead body] eqn:Hs.
    + intros E; inversion E; subst. repeat split. left. rewrite Hs. repeat split.
    + destruct (checkCollision (prevHead :: body) (advance prevHead (directionRef st))).
      * intros E; inversion E; subst. repeat split. left.
        cbn [snake food score setGameOver]. rewrite ?Hs. repeat split.
      * destruct ((x (advance prevHead (directionRef st)) =? x (food st)) &&
                  (y (advance prevHead (directionRef st)) =? y (food st))) eqn:F.
        -- destruct (generateFood (prevHead :: body) draws); [|discriminate].
           intros E; inversion E; subst. split; [reflexivity|]. split; [reflexivity|].
           right. cbn [snake score setSnake setScore setFood hd_error List.length].
           apply (Position_eqb_eq _ (food st)) in F. rewrite F, ?Hs.
           repeat split.
        -- intros E; inversion E; subst. split; [reflexivity|]. split; [reflexivity|].
           left. cbn [snake score food setSnake]. rewrite ?Hs.
           split; [reflexivity|]. split; [reflexivity|].
           apply (length_removelast_cons (advance prevHead (directionRef st))
                    (prevHead :: body)).
Qed.

Lemma tick_keeps_or_eats_witness :
  directionRef state_after_eat = directionRef state_before_eat /\
  isPaused state_after_eat = isPaused state_before_eat /\
  ((food state_after_eat = food state_before_eat /\
    score state_after_eat = score state_before_eat /\
    List.length (snake state_after_eat) = List.length (snake state_before_eat)) \/
   (hd_error (snake state_after_eat) = Some (food state_before_eat) /\
    score state_after_eat = score state_before_eat + 10 /\
    List.length (snake state_after_eat) = S (List.length (snake state_before_eat)))).
Proof.
  apply (tick_keeps_or_eats state_before_eat [(0, 0)%Q] state_after_eat).
  vm_compute. reflexivity.
Defined.

Lemma keyMap_Some_arrow key d :
  keyMap key = Some d ->
  String.eqb key " " || String.eqb key "Enter" = false /\
  String.eqb key " " || String.eqb key "p" || String.eqb key "P" = false.
Proof.
  unfold keyMap.
  destruct (String.eqb key "ArrowUp") eqn:E1;
    [apply String.eqb_eq in E1; subst; auto|].
  destruct (String.eqb key "ArrowDown") eqn:E2;
    [apply String.eqb_eq in E2; subst; auto|].
  destruct (String.eqb key "ArrowLeft") eqn:E3;
    [apply String.eqb_eq in E3; subst; auto|].
  destruct (String.eqb key "ArrowRight") eqn:E4;
    [apply String.eqb_eq in E4; subst; auto|].
  discriminate.
Qed.

(** X12: while the game is not over, an arrow key replaces the direction
    cell exactly when the requested direction is at a right angle to the one
    in the cell; a request for the same or for the opposite direction leaves
    the state as it is. *)
Theorem arrow_accepted_iff_perpendicular key d st :
  gameOver st = false ->
  isDirection (directionRef st) ->
  keyMap key = Some d ->
  (perpendicular d (directionRef st) -> handleKeyPress key st = setDirectionRef st d) /\
  (~ perpendicular d (directionRef st) -> handleKeyPress key st = st).
Proof.
  intros G Hcur K.
  pose proof (keyMap_isDirection key d K) as Hd.
  destruct (keyMap_Some_arrow key d K) as [_ Hp].
  unfold handleKeyPress. rewrite G, Hp, K. unfold perpendicular.
  destruct Hcur as [-> | [-> | [-> | ->]]];
    destruct Hd as [-> | [-> | [-> | ->]]]; simpl; split; intros H;
    try reflexivity; try discriminate H; exfalso; apply H; reflexivity.
Qed.

Lemma arrow_accepted_iff_perpendicular_witness :
  handleKeyPress "ArrowLeft" state_after_eat
    = setDirectionRef state_after_eat {| x := -1; y := 0 |} /\
  handleKeyPress "ArrowUp" state_after_eat = state_after_eat.
Proof.
  split.
  - apply (arrow_accepted_iff_perpendicular "ArrowLeft" {| x := -1; y := 0 |}
             state_after_eat); try reflexivity.
    right; right; left; reflexivity.
  - apply (arrow_accepted_iff_perpendicular "ArrowUp" {| x := 0; y := -1 |}
             state_after_eat); try reflexivity.
    + right; right; left; reflexivity.
    + unfold perpendicular. simpl. discriminate.
Defined.

(** X13: in every phase an arrow key changes at most the direction cell:
    snake, food, score and both flags stay as they are. *)
Theorem arrow_touches_only_direction key d st :
  keyMap key = Some d ->
  snake (handleKeyPress key st) = snake st /\
  food (handleKeyPress key st) = food st /\
  score (handleKeyPress key st) = score st /\
  gameOver (handleKeyPress key st) = gameOver st /\
  isPaused (handleKeyPress key st) = isPaused st.
Proof.
  intros K. destruct (keyMap_Some_arrow key d K) as [Hr Hp].
  unfold handleKeyPress. rewrite Hr, Hp, K.
  destruct (gameOver st) eqn:G; [rewrite G; auto 10|].
  destruct (negb (x d =? - x (directionRef st)) && negb (y d =? - y (directionRef st)));
    simpl; rewrite ?G; auto 10.
Qed.

Lemma arrow_touches_only_direction_witness :
  snake (handleKeyPress "ArrowLeft" state_after_eat) = snake state_after_eat /\
  food (handleKeyPress "ArrowLeft" state_after_eat) = food state_after_eat /\
  score (handleKeyPress "ArrowLeft" state_after_eat) = score state_after_eat /\
  gameOver (handleKeyPress "ArrowLeft" state_after_eat) = gameOver state_after_eat /\
  isPaused (handleKeyPress "ArrowLeft" state_after_eat) = isPaused state_after_eat.
Proof.
  apply (arrow_touches_only_direction "ArrowLeft" {| x := -1; y := 0 |} state_after_eat).
  reflexivity.
Defined.


(** While the game is not over, pressing a pause key twice gives the state
    back unchanged; the two keys need not be the same. *)
Lemma pause_twice_restores key1 key2 st :
  gameOver st = false ->
  isPauseKey key1 -> isPauseKey key2 ->
  handleKeyPress key2 (handleKeyPress key1 st) = st.
Proof.
  intros G H1 H2. apply pause_test_iff in H1, H2.
  destruct st as [s f g sc p d]. simpl in G. subst g.
  unfold handleKeyPress. simpl. rewrite H1. simpl. rewrite H2.
  unfold setIsPaused. simpl. now rewrite negb_involutive.
Qed.

Lemma run_ticks_not_Running es : forall st,
  phase st <> Running -> Forall isTick es -> run es st = Some st.
Proof.
  induction es as [|e es IH]; intros st Hp Hall; [reflexivity|].
  inversion Hall as [|? ? He Hes]; subst.
  destruct e as [draws | key]; [|contradiction].
  simpl. rewrite gameLoop_not_Running by assumption. now apply IH.
Qed.

Lemma run_app es1 : forall es2 st,
  run (es1 ++ es2) st =
    match run es1 st with
    | Some st1 => run es2 st1
    | None => None
    end.
Proof.
  induction es1 as [|e es1 IH]; intros es2 st; [reflexivity|].
  simpl. destruct (exec e st); [apply IH | reflexivity].
Qed.

(** X15: pausing a running game, letting any number of timer periods pass
    and resuming gives back exactly the state that was paused. *)
Theorem pause_and_resume_lose_nothing key1 key2 es st :
  phase st = Running ->
  isPauseKey key1 -> isPauseKey key2 ->
  Forall isTick es ->
  run (KeyDown key1 :: es ++ [KeyDown key2]) st = Some st.
Proof.
  intros Hp H1 H2 Hticks.
  assert (G : gameOver st = false).
  { unfold phase in Hp. destruct (gameOver st); [discriminate | reflexivity]. }
  assert (P : isPaused st = false).
  { unfold phase in Hp. rewrite G in Hp.
    destruct (isPaused st); [discriminate | reflexivity]. }
  assert (Hpaused : phase (handleKeyPress key1 st) <> Running).
  { apply pause_test_iff in H1. unfold phase, handleKeyPress.
    rewrite G, H1. simpl. rewrite G, P. discriminate. }
  cbn [run exec]. rewrite run_app.
  rewrite (run_ticks_not_Running es _ Hpaused Hticks).
  cbn [run exec]. f_equal.
  now apply pause_twice_restores.
Qed.

Lemma pause_and_resume_lose_nothing_witness :
  run (KeyDown "p" :: [Tick []; Tick [(0, 0)%Q]] ++ [KeyDown "P"]) state_before_eat
    = Some state_before_eat.
Proof.
  apply (pause_and_resume_lose_nothing "p" "P" [Tick []; Tick [(0, 0)%Q]]
           state_before_eat).
  - reflexivity.
  - right; left; reflexivity.
  - right; right; reflexivity.
  - repeat constructor.
Defined.

(** * The grid of the view *)

Lemma cellOfIndex_inBounds (index : Z) :
  0 <= index < GRID_SIZE * GRID_SIZE -> inBounds (cellOfIndex index).
Proof.
  unfold inBounds, cellOfIndex, GRID_SIZE. simpl. intros H. split.
  - apply Z.mod_pos_bound. lia.
  - split; [apply Z.div_pos; lia | apply Z.div_lt_upper_bound; lia].
Qed.

Lemma cellOfIndex_indexOfCell (p : Position) :
  inBounds p -> cellOfIndex (indexOfCell p) = p.
Proof.
  destruct p as [px py]. unfold inBounds, cellOfIndex, indexOfCell, GRID_SIZE.
  simpl. intros [Hx Hy].
  assert (Hm : (py * 20 + px) mod 20 = px).
  { rewrite Z.add_comm, Z.mod_add by discriminate. apply Z.mod_small. lia. }
  assert (Hq : (py * 20 + px) / 20 = py).
  { rewrite Z.add_comm, Z.div_add by discriminate.
    rewrite Z.div_small by lia. lia. }
  now rewrite Hm, Hq.
Qed.

Lemma indexOfCell_cellOfIndex (index : Z) :
  indexOfCell (cellOfIndex index) = index.
Proof.
  unfold indexOfCell, cellOfIndex, GRID_SIZE. simpl.
  pose proof (Z.div_mod index 20). lia.
Qed.

(** X16: every index below GRID_SIZE * GRID_SIZE paints a cell of the
    grid, and no other index paints the same cell. *)
Theorem grid_index_paints_grid_cell index :
  0 <= index < GRID_SIZE * GRID_SIZE ->
  inBounds (cellOfIndex index) /\
  forall other, cellOfIndex other = cellOfIndex index -> other = index.
Proof.
  intros H. split; [now apply cellOfIndex_inBounds|].
  intros other E. rewrite <- (indexOfCell_cellOfIndex other), E.
  apply indexOfCell_cellOfIndex.
Qed.

Lemma grid_index_paints_grid_cell_witness :
  inBounds (cellOfIndex 399) /\
  forall other, cellOfIndex other = cellOfIndex 399 -> other = 399.
Proof.
  apply (grid_index_paints_grid_cell 399). unfold GRID_SIZE. lia.
Defined.

(** X17: every cell of the grid is painted by an index below
    GRID_SIZE * GRID_SIZE, namely y * GRID_SIZE + x. *)
Theorem grid_cell_has_index p :
  inBounds p ->
  0 <= y p * GRID_SIZE + x p < GRID_SIZE * GRID_SIZE /\
  cellOfIndex (y p * GRID_SIZE + x p) = p.
Proof.
  intros Hp. split.
  - exact (indexOfCell_range p Hp).
  - exact (cellOfIndex_indexOfCell p Hp).
Qed.

Lemma grid_cell_has_index_witness :
  0 <= 5 * GRID_SIZE + 19 < GRID_SIZE * GRID_SIZE /\
  cellOfIndex (5 * GRID_SIZE + 19) = {| x := 19; y := 5 |}.
Proof.
  apply (grid_cell_has_index {| x := 19; y := 5 |}).
  unfold inBounds, GRID_SIZE. simpl. lia.
Defined.

Lemma isSnakeBody_iff (snake : list Position) (c : Position) :
  isSnakeBody snake c = true <-> In c (tl snake).
Proof.
  unfold isSnakeBody. destruct snake as [|first body]; [simpl; split; [discriminate | tauto]|].
  rewrite (array_some_skip_head _ (fun s => (x s =? x c) && (y s =? y c)))
    by (intros; simpl; try rewrite andb_assoc; reflexivity).
  apply existsb_Position.
Qed.

Lemma isSnakeHead_iff (snake : list Position) (c : Position) :
  isSnakeHead snake c = true <-> hd_error snake = Some c.
Proof.
  destruct snake as [|first body]; simpl; [split; discriminate|].
  change ((x first =? x c) && (y first =? y c)) with (Position_eqb first c).
  rewrite Position_eqb_eq. split; [now intros -> | now intros [= ->]].
Qed.

(** X18: a cell is marked as head or as body exactly when a segment of the
    snake lies on it; the head mark means the first segment and the body
    mark any later one. *)
Theorem marks_follow_snake (snake : list Position) (c : Position) :
  (isSnakeHead snake c = true <-> hd_error snake = Some c) /\
  (isSnakeBody snake c = true <-> In c (tl snake)) /\
  (isSnakeHead snake c || isSnakeBody snake c = true <-> In c snake).
Proof.
  split; [apply isSnakeHead_iff|]. split; [apply isSnakeBody_iff|].
  rewrite orb_true_iff, isSnakeHead_iff, isSnakeBody_iff.
  destruct snake as [|first body]; simpl.
  - split; [intros [E | []]; discriminate E | tauto].
  - split.
    + intros [[= ->] | H]; [now left | now right].
    + intros [-> | H]; [now left | now right].
Qed.

(** X19: in a reachable state no cell of the grid carries both the head
    mark and the body mark. *)
Theorem head_and_body_marks_exclusive st c :
  reachable st ->
  isSnakeHead (snake st) c && isSnakeBody (snake st) c = false.
Proof.
  intros Hr. destruct (reachable_Inv st Hr) as (_ & Hnd & _).
  apply not_true_iff_false. rewrite andb_true_iff, isSnakeHead_iff, isSnakeBody_iff.
  intros [Hh Hb]. destruct (snake st) as [|first body]; [discriminate|].
  injection Hh as ->. inversion Hnd; subst. simpl in Hb. contradiction.
Qed.

Lemma head_and_body_marks_exclusive_witness :
  isSnakeHead (snake state_after_eat) {| x := 15; y := 15 |}
  && isSnakeBody (snake state_after_eat) {| x := 15; y := 15 |} = false.
Proof.
  apply (head_and_body_marks_exclusive state_after_eat). apply reachable_state_after_eat.
Defined.

(** X20: when the view shows the grid the phase is Running, the grid has
    GRID_SIZE * GRID_SIZE cells, and the cell that shows position (x, y) is
    element y * GRID_SIZE + x, carrying the three marks of that position. *)
Theorem render_grid st cells p :
  render st = GridScreen cells ->
  inBounds p ->
  phase st = Running /\
  List.length cells = 400%nat /\
  nth_error cells (Z.to_nat (y p * GRID_SIZE + x p)) =
    Some ("cell " ++ (if isSnakeHead (snake st) p then "snake-head" else "")
            ++ " " ++ (if isSnakeBody (snake st) p then "snake-body" else "")
            ++ " " ++ (if isFood (food st) p then "food" else ""))%string.
Proof.
  unfold render, phase. intros E Hp.
  destruct (gameOver st); [discriminate|]. destruct (isPaused st); [discriminate|].
  assert (E' : cells = map (fun index => className st (Z.of_nat index))
                           (seq 0 (Z.to_nat (GRID_SIZE * GRID_SIZE))))
    by (symmetry; congruence).
  clear E. subst cells. split; [reflexivity|]. split.
  - rewrite length_map, length_seq. reflexivity.
  - pose proof (indexOfCell_range p Hp) as R.
    unfold indexOfCell in R.
    rewrite nth_error_map, nth_error_seq.
    change (Z.to_nat (GRID_SIZE * GRID_SIZE)) with 400%nat.
    unfold GRID_SIZE in R.
    destruct (Nat.ltb_spec (Z.to_nat (y p * GRID_SIZE + x p)) 400) as [_ | Hge];
      [|unfold GRID_SIZE in Hge; lia].
    cbn [option_map Nat.add]. unfold className.
    rewrite Z2Nat.id by (unfold GRID_SIZE; lia).
    change (y p * GRID_SIZE + x p) with (indexOfCell p).
    now rewrite (cellOfIndex_indexOfCell p Hp).
Qed.

Lemma render_grid_witness :
  phase state_after_eat = Running /\
  List.length (map (fun index => className state_after_eat (Z.of_nat index))
                   (seq 0 (Z.to_nat (GRID_SIZE * GRID_SIZE)))) = 400%nat /\
  nth_error (map (fun index => className state_after_eat (Z.of_nat index))
                 (seq 0 (Z.to_nat (GRID_SIZE * GRID_SIZE))))
            (Z.to_nat (y {| x := 15; y := 15 |} * GRID_SIZE + x {| x := 15; y := 15 |})) =
    Some ("cell " ++ (if isSnakeHead (snake state_after_eat) {| x := 15; y := 15 |}
                      then "snake-head" else "")
            ++ " " ++ (if isSnakeBody (snake state_after_eat) {| x := 15; y := 15 |}
                       then "snake-body" else "")
            ++ " " ++ (if isFood (food state_after_eat) {| x := 15; y := 15 |}
                       then "food" else ""))%string.
Proof.
  apply (render_grid state_after_eat _ {| x := 15; y := 15 |}).
  - reflexivity.
  - unfold inBounds, GRID_SIZE. simpl. lia.
Defined.

(** * The food stays on the grid *)

(** X21: if the food is on the grid and an event is handled whose draws, if
    it is a tick, are values that [Math.random()] can return, the food is on
    the grid afterwards. *)
Theorem food_stays_on_grid e st st' :
  inBounds (food st) ->
  (forall draws, e = Tick draws -> Forall validDraw draws) ->
  exec e st = Some st' ->
  inBounds (food st').
Proof.
  intros Hfood Hvalid He. destruct e as [draws | key]; simpl in He.
  - specialize (Hvalid draws eq_refl).
    unfold gameLoop in He. destruct (gameOver st || isPaused st);
      [now inversion He; subst|].
    unfold moveSnake in He. destruct (snake st) as [|prevHead body];
      [now inversion He; subst|].
    destruct (checkCollision (prevHead :: body) (advance prevHead (directionRef st)));
      [now inversion He; subst|].
    destruct ((x (advance prevHead (directionRef st)) =? x (food st)) &&
              (y (advance prevHead (directionRef st)) =? y (food st)));
      [|now inversion He; subst].
    destruct (generateFood (prevHead :: body) draws) as [newFood|] eqn:Hg;
      [|discriminate].
    inversion He; subst st'. cbn [food setSnake setScore setFood].
    destruct (generateFood_drawn _ draws newFood Hg) as [r [Hin ->]].
    rewrite Forall_forall in Hvalid.
    destruct (Hvalid r Hin) as (H1 & H2 & H3 & H4).
    now apply randomCell_inBounds.
  - inversion He; subst st'. unfold handleKeyPress.
    destruct (gameOver st).
    + destruct (String.eqb key " " || String.eqb key "Enter"); [|assumption].
      unfold inBounds, GRID_SIZE. simpl. lia.
    + destruct (String.eqb key " " || String.eqb key "p" || String.eqb key "P");
        [assumption|].
      destruct (keyMap key) as [d|]; [|assumption].
      now destruct (negb (x d =? - x (directionRef st))
                    && negb (y d =? - y (directionRef st))).
Qed.

Lemma food_stays_on_grid_witness : inBounds (food state_after_eat).
Proof.
  apply (food_stays_on_grid (Tick [(0, 0)%Q]) state_before_eat state_after_eat).
  - unfold inBounds, GRID_SIZE. simpl. lia.
  - intros draws E. injection E as <-.
    repeat constructor; simpl; unfold Qle, Qlt; simpl; lia.
  - vm_compute. reflexivity.
Defined.

(** * Restart *)

Lemma reset_is_initialState st : reset st = initialState.
Proof. reflexivity. Qed.

(** Outside GameOver the listener never reaches the reset block: Enter
    leaves the state as it is and the space bar only flips the pause flag. *)
Lemma restart_keys_outside_GameOver st :
  phase st <> GameOver ->
  handleKeyPress "Enter" st = st /\
  handleKeyPress " " st = setIsPaused st (negb (isPaused st)).
Proof.
  intros Hp. unfold handleKeyPress.
  destruct (gameOver st) eqn:G.
  - exfalso. apply Hp. unfold phase. now rewrite G.
  - split; reflexivity.
Qed.



(** * Agreement of the two embeddings *)

Lemma some_from_map {A B : Type} (g : A -> B)
      (f : B -> nat -> bool) (f' : A -> nat -> bool) (l : list A) :
  (forall a i, f (g a) i = f' a i) ->
  forall i, some_from f i (map g l) = some_from f' i l.
Proof.
  intros Hff. induction l as [|a l IH]; intros i; simpl; [reflexivity|].
  now rewrite Hff, IH.
Qed.

Lemma map_removelast {A B : Type} (g : A -> B) (l : list A) :
  map g (removelast l) = removelast (map g l).
Proof.
  induction l as [|a l IH]; [reflexivity|].
  destruct l as [|b l]; [reflexivity|].
  rewrite removelast_cons2. cbn [map]. rewrite removelast_cons2.
  f_equal. exact IH.
Qed.

Lemma lift_generateFood s draws :
  Js.generateFood (map liftPosition s) draws
  = option_map liftPosition (generateFood s draws).
Proof.
  induction draws as [|r rest IH]; [reflexivity|].
  rewrite generateFood_cons. cbn [Js.generateFood].
  unfold array_some.
  rewrite (some_from_map liftPosition _
             (fun segment _ =>
                (x segment =? x (randomCell r)) && (y segment =? y (randomCell r))))
    by reflexivity.
  destruct (some_from _ 0 s); [exact IH | reflexivity].
Qed.

Lemma lift_checkCollision s head :
  Js.checkCollision (map liftPosition s) (liftPosition head) = checkCollision s head.
Proof.
  unfold Js.checkCollision, checkCollision, array_some.
  rewrite (some_from_map liftPosition _
             (fun segment index =>
                (0 <? index)%nat && (x segment =? x head) && (y segment =? y head)))
    by reflexivity.
  reflexivity.
Qed.

Lemma lift_moveSnake st draws :
  Js.moveSnake (lift st) draws = option_map lift (moveSnake st draws).
Proof.
  destruct st as [s f g sc p d].
  unfold Js.moveSnake, moveSnake, lift.
  cbn [Js.snake Js.food Js.score Js.directionRef snake food score directionRef
       gameOver isPaused].
  destruct s as [|prevHead body]; [reflexivity|].
  change (map liftPosition (prevHead :: body))
    with (liftPosition prevHead :: map liftPosition body).
  cbv iota beta.
  change (Js.advance (liftPosition prevHead) (liftDirection d))
    with (liftPosition (advance prevHead d)).
  change (liftPosition prevHead :: map liftPosition body)
    with (map liftPosition (prevHead :: body)).
  rewrite lift_checkCollision.
  destruct (checkCollision (prevHead :: body) (advance prevHead d)); [reflexivity|].
  change (Js.strictEq (Js.x (liftPosition (advance prevHead d))) (Js.x (liftPosition f))
          && Js.strictEq (Js.y (liftPosition (advance prevHead d))) (Js.y (liftPosition f)))
    with ((x (advance prevHead d) =? x f) && (y (advance prevHead d) =? y f)).
  destruct ((x (advance prevHead d) =? x f) && (y (advance prevHead d) =? y f)).
  - rewrite lift_generateFood.
    destruct (generateFood (prevHead :: body) draws); reflexivity.
  - cbn [option_map]. f_equal. unfold Js.setSnake, setSnake, lift.
    cbn [Js.snake Js.food Js.score Js.directionRef Js.gameOver Js.isPaused
         snake food score directionRef gameOver isPaused].
    f_equal.
    change (liftPosition (advance prevHead d) :: map liftPosition (prevHead :: body))
      with (map liftPosition (advance prevHead d :: prevHead :: body)).
    symmetry. apply map_removelast.
Qed.

Lemma lift_gameLoop st draws :
  Js.gameLoop (lift st) draws = option_map lift (gameLoop st draws).
Proof.
  unfold Js.gameLoop, gameLoop. cbn [lift Js.gameOver Js.isPaused].
  destruct (gameOver st || isPaused st); [reflexivity | apply lift_moveSnake].
Qed.

Lemma lift_keyMap key :
  Js.inheritedMember key = false ->
  Js.keyMap key = option_map liftDirection (keyMap key).
Proof.
  intros H. unfold Js.keyMap, keyMap. rewrite H.
  repeat match goal with
         | |- context [String.eqb ?a ?b] => destruct (String.eqb a b)
         end; reflexivity.
Qed.

Lemma lift_handleKeyPress key st :
  Js.inheritedMember key = false ->
  Js.handleKeyPress key (lift st) = lift (handleKeyPress key st).
Proof.
  intros H. unfold Js.handleKeyPress, handleKeyPress.
  cbn [lift Js.gameOver Js.isPaused Js.directionRef].
  destruct (gameOver st).
  - destruct (String.eqb key " " || String.eqb key "Enter"); reflexivity.
  - destruct (String.eqb key " " || String.eqb key "p" || String.eqb key "P");
      [reflexivity|].
    rewrite (lift_keyMap key H).
    destruct (keyMap key) as [d|]; [|reflexivity].
    cbn [option_map].
    change (Js.strictNeq (Js.dirX (liftDirection d))
              (Js.neg (Js.dirX (liftDirection (directionRef st))))
            && Js.strictNeq (Js.dirY (liftDirection d))
                 (Js.neg (Js.dirY (liftDirection (directionRef st)))))
      with (negb (x d =? - x (directionRef st)) && negb (y d =? - y (directionRef st))).
    destruct (negb (x d =? - x (directionRef st)) && negb (y d =? - y (directionRef st)));
      reflexivity.
Qed.

(** On an event that is a tick or a key whose name is not a member of
    [Object.prototype], the integer embedding and the embedding on
    JavaScript values take the same step. *)
Lemma lift_exec e st :
  Js.plainEvent e -> Js.exec e (lift st) = option_map lift (exec e st).
Proof.
  destruct e as [draws | key]; simpl; intros H.
  - apply lift_gameLoop.
  - now rewrite lift_handleKeyPress.
Qed.

Lemma Js_reachable_lift s :
  Js.reachable s -> exists st, reachable st /\ s = lift st.
Proof.
  induction 1 as [|e s s' _ [st [Hr ->]] Hplain Hexec].
  - exists initialState. split; [constructor | reflexivity].
  - rewrite (lift_exec e st Hplain) in Hexec.
    destruct (exec e st) as [st'|] eqn:He; [|discriminate].
    exists st'. split; [|now inversion Hexec].
    eapply reachable_exec; eassumption.
Qed.

Lemma Js_run_reachable es : forall s s',
  Forall Js.plainEvent es -> Js.reachable s -> Js.run es s = Some s' -> Js.reachable s'.
Proof.
  induction es as [|e es IH]; intros s s' Hall Hr; simpl.
  - intros E; inversion E; now subst.
  - inversion Hall as [|? ? He Hes]; subst.
    destruct (Js.exec e s) as [s1|] eqn:Hx; [|discriminate].
    apply IH; [assumption|]. eapply Js.reachable_exec; eassumption.
Qed.

Lemma Js_reachable_after_eat : Js.reachable (lift state_after_eat).
Proof.
  apply (Js_run_reachable trace_eat Js.initialState).
  - repeat constructor.
  - constructor.
  - vm_compute. reflexivity.
Qed.

Lemma lift_inBounds p : inBounds p -> Js.inBounds (liftPosition p).
Proof. intros H. exact H. Qed.

Lemma lift_contiguous l : contiguous l -> Js.contiguous (map liftPosition l).
Proof.
  induction l as [|p l IH]; [trivial|].
  destruct l as [|q l]; [trivial|].
  intros [Hadj Hrest]. split; [exact Hadj | now apply IH].
Qed.

(** X2: in every state reached from the initial state by ticks and by keys
    whose name is not a member of [Object.prototype], every segment of the
    snake has integer coordinates in [0, GRID_SIZE). *)
Theorem snake_on_grid_on_plain_runs s :
  Js.reachable s -> Forall Js.inBounds (Js.snake s).
Proof.
  intros Hs. destruct (Js_reachable_lift s Hs) as [st [Hr ->]].
  destruct (reachable_Shape st Hr) as (Hin & _ & _).
  cbn [lift Js.snake]. apply Forall_map.
  revert Hin. apply Forall_impl. exact lift_inBounds.
Qed.

Lemma snake_on_grid_on_plain_runs_witness :
  Forall Js.inBounds (Js.snake (lift state_after_eat)).
Proof.
  apply (snake_on_grid_on_plain_runs (lift state_after_eat)).
  apply Js_reachable_after_eat.
Defined.

(** X3: in every state reached from the initial state by ticks and by keys
    whose name is not a member of [Object.prototype], each segment is an
    orthogonal neighbour of the segment that follows it. *)
Theorem snake_contiguous_on_plain_runs s :
  Js.reachable s -> Js.contiguous (Js.snake s).
Proof.
  intros Hs. destruct (Js_reachable_lift s Hs) as [st [Hr ->]].
  destruct (reachable_Shape st Hr) as (_ & Hc & _).
  cbn [lift Js.snake]. now apply lift_contiguous.
Qed.

Lemma snake_contiguous_on_plain_runs_witness :
  Js.contiguous (Js.snake (lift state_after_eat)).
Proof.
  apply (snake_contiguous_on_plain_runs (lift state_after_eat)).
  apply Js_reachable_after_eat.
Defined.

(** X14: a key that is neither a restart key nor a pause key and for which
    the read [keyMap[key]] gives [undefined] (no arrow, no member of
    [Object.prototype]) is ignored in every phase. *)
Theorem key_without_mapping_ignored key s :
  ~ isRestartKey key -> ~ isPauseKey key -> Js.keyMap key = None ->
  Js.handleKeyPress key s = s.
Proof.
  intros Hr Hp K. unfold Js.handleKeyPress.
  destruct (String.eqb key " " || String.eqb key "Enter") eqn:R;
    [apply restart_test_iff in R; contradiction|].
  destruct (String.eqb key " " || String.eqb key "p" || String.eqb key "P") eqn:P;
    [apply pause_test_iff in P; contradiction|].
  rewrite K. now destruct (Js.gameOver s).
Qed.

Lemma key_without_mapping_ignored_witness :
  Js.handleKeyPress "Escape" (lift state_after_eat) = lift state_after_eat.
Proof.
  apply (key_without_mapping_ignored "Escape" (lift state_after_eat)).
  - intros [E | E]; discriminate E.
  - intros [E | [E | E]]; discriminate E.
  - reflexivity.
Defined.

(** * Keys named like members of Object.prototype *)

(** On runs without such keys the direction cell holds one of the four
    vectors. *)
Lemma direction_is_vector_on_plain_runs s :
  Js.reachable s -> Js.isDirection (Js.directionRef s).
Proof.
  intros Hs. destruct (Js_reachable_lift s Hs) as [st [Hr ->]].
  destruct (reachable_Inv st Hr) as (Hd & _ & _).
  cbn [lift Js.directionRef]. unfold Js.isDirection, liftDirection.
  destruct Hd as [-> | [-> | [-> | ->]]]; simpl; tauto.
Qed.

(** While the game is not over, a key named like a member of
    [Object.prototype] always passes the guard, whatever the cell holds. *)
Lemma inherited_member_stored key s :
  Js.gameOver s = false ->
  Js.inheritedMember key = true ->
  Js.handleKeyPress key s = Js.setDirectionRef s (Js.Inherited key).
Proof.
  intros G H. unfold Js.handleKeyPress. rewrite G.
  unfold Js.inheritedMember in H. simpl in H.
  repeat rewrite orb_true_iff in H. rewrite !String.eqb_eq in H.
  repeat (destruct H as [H | H]; [subst key; reflexivity|]).
  discriminate H.
Qed.

(** C10 on the code: a keydown whose key is "constructor" reads the
    inherited member of that name from [keyMap], the guard lets it through
    and the direction cell no longer holds one of the four unit vectors.
    The next tick adds [undefined] to the head: the snake is the single
    segment (NaN, NaN), which is no neighbour of the old head (10,10), and
    the game goes on. *)
Theorem C10_inherited_member_in_direction_cell :
  Js.keyMap "constructor" = Some (Js.Inherited "constructor") /\
  Js.directionRef (Js.handleKeyPress "constructor" Js.initialState)
    = Js.Inherited "constructor" /\
  ~ Js.isDirection (Js.directionRef (Js.handleKeyPress "constructor" Js.initialState)) /\
  exists s',
    Js.run [KeyDown "constructor"; Tick []] Js.initialState = Some s' /\
    Js.snake s' = [ {| Js.x := Js.NaN; Js.y := Js.NaN |} ] /\
    Js.gameOver s' = false /\
    ~ Js.adjacent {| Js.x := Js.Int 10; Js.y := Js.Int 10 |}
                  {| Js.x := Js.NaN; Js.y := Js.NaN |}.
Proof.
  split; [reflexivity|]. split; [reflexivity|]. split.
  - intros [E | [E | [E | E]]]; discriminate E.
  - eexists. split; [reflexivity|]. split; [reflexivity|]. split; [reflexivity|].
    intros H. exact H.
Qed.
